(** * Concor: the rule engine of [src/components/ConcorGame.tsx]

    A shallow embedding of the card model, the meld classifier, the
    combination generator, the win evaluator, the deck builder and the
    turn handlers of the Concor table, together with the properties the
    specification states about them. *)

From Stdlib Require Import ZArith NArith Ascii String DecimalString.
From stdpp Require Import base decidable option numbers list sorting gmap.

Set Default Proof Using "Type".
Local Open Scope nat_scope.

(** ** JavaScript strings

    A JavaScript string is a sequence of UTF-16 code units; [length],
    [slice] and [===] all work on code units.  The four suit symbols are
    single code units of the Basic Multilingual Plane, so a token such as
    ["10♠"] has length 3 and ["A♠"] has length 2. *)

Abbreviation jsstring := (list N).

Definition units (s : string) : jsstring :=
  N_of_ascii <$> list_ascii_of_string s.

Definition spade : jsstring := [9824%N].   (* U+2660 *)
Definition heart : jsstring := [9829%N].   (* U+2665 *)
Definition diamond : jsstring := [9830%N]. (* U+2666 *)
Definition club : jsstring := [9827%N].    (* U+2663 *)

(** [s.slice(-k)]: the last [k] units; [-0] is [0], so [slice(-0)] is the
    whole sequence. *)
Definition slice_last {A} (k : nat) (l : list A) : list A :=
  if k =? 0 then l else drop (length l - k) l.

(** [s.slice(0, -1)]: everything but the last unit. *)
Definition slice_init {A} (l : list A) : list A :=
  take (length l - 1) l.

(** [arr.every((x, idx) => f x idx)], started at index [i]. *)
Fixpoint every_from {A} (f : A → nat → bool) (i : nat) (l : list A) : bool :=
  match l with
  | [] => true
  | x :: l' => f x i && every_from f (S i) l'
  end.

(** [arr.filter((x, idx) => f idx)], started at index [i]. *)
Fixpoint filter_from {A} (f : nat → bool) (i : nat) (l : list A) : list A :=
  match l with
  | [] => []
  | x :: l' => if f i then x :: filter_from f (S i) l' else filter_from f (S i) l'
  end.

(** ** Card model *)

Inductive Color := red | black.

#[global] Instance Color_eq_dec : EqDecision Color.
Proof. solve_decision. Defined.

(** [value] is [None] when [CARD_VALUES[rank]] is not a number: the lookup
    misses the thirteen keys and yields [undefined] (or a member inherited
    from [Object.prototype]); arithmetic on it gives [NaN]. *)
Record ParsedCard := mkParsedCard {
  original : jsstring;
  rank : jsstring;
  suit : jsstring;
  value : option Z;
  color : Color
}.

#[global] Instance ParsedCard_eq_dec : EqDecision ParsedCard.
Proof. solve_decision. Defined.

Definition RANK_ORDER : list jsstring :=
  units <$> ["A"; "2"; "3"; "4"; "5"; "6"; "7"; "8"; "9"; "10"; "J"; "Q"; "K"]%string.

Definition CARD_VALUES_table : list (jsstring * Z) :=
  [(units "A", 1); (units "2", 2); (units "3", 3); (units "4", 4);
   (units "5", 5); (units "6", 6); (units "7", 7); (units "8", 8);
   (units "9", 9); (units "10", 10); (units "J", 11); (units "Q", 12);
   (units "K", 13)]%Z.

Definition CARD_VALUES (key : jsstring) : option Z :=
  snd <$> find (λ kv, bool_decide (kv.1 = key)) CARD_VALUES_table.

Definition getCardColor (suit : jsstring) : Color :=
  if bool_decide (suit = heart) || bool_decide (suit = diamond) then red else black.

Definition parseCard (cardStr : jsstring) : ParsedCard :=
  let suit := slice_last 1 cardStr in
  let rank := if length cardStr =? 3 then units "10" else slice_init cardStr in
  {| original := cardStr;
     rank := rank;
     suit := suit;
     value := CARD_VALUES rank;
     color := getCardColor suit |}.

(** ** Meld classifier *)

Definition isSet (cards : list ParsedCard) : bool :=
  if (length cards <? 3) || (4 <? length cards) then false else
  match cards with
  | [] => false (* not reached: the length is 3 or 4 *)
  | card0 :: _ =>
    let firstRank := rank card0 in
    if negb (forallb (λ card, bool_decide (rank card = firstRank)) cards) then false else
    let redCount := length (filter (λ card, color card = red) cards) in
    let blackCount := length (filter (λ card, color card = black) cards) in
    if length cards =? 3 then
      ((redCount =? 2) && (blackCount =? 1)) || ((redCount =? 1) && (blackCount =? 2))
    else if length cards =? 4 then
      (redCount =? 2) && (blackCount =? 2)
    else false
  end.

(** The comparator [(a, b) => a.value - b.value]; [None] is [NaN]. *)
Definition compareValue (a b : ParsedCard) : option Z :=
  x ← value a; y ← value b; Some (x - y)%Z.

(** [Array.prototype.sort] is stable and reads a [NaN] comparison as [+0].
    Insertion keeps an element in front of the first one it does not
    exceed.  Whenever every value is a number the comparator is a
    consistent ordering and the outcome is the one stable arrangement by
    value, whatever algorithm the engine runs; with a [NaN] in play the
    language leaves the order to the engine, and the properties below are
    stated for cards that carry a number. *)
Definition sortsBefore (a b : ParsedCard) : bool :=
  match compareValue a b with
  | Some d => (d <=? 0)%Z
  | None => true
  end.

Fixpoint sortInsert (a : ParsedCard) (l : list ParsedCard) : list ParsedCard :=
  match l with
  | [] => [a]
  | b :: l' => if sortsBefore a b then a :: b :: l' else b :: sortInsert a l'
  end.

Definition sortByValue (cards : list ParsedCard) : list ParsedCard :=
  foldr sortInsert [] cards.

(** [cur.value !== prev.value + 1]: strict inequality holds unless both are
    numbers and equal. *)
Definition notNextValue (prev cur : ParsedCard) : bool :=
  match value prev, value cur with
  | Some p, Some c => negb (c =? p + 1)%Z
  | _, _ => true
  end.

(** The loop over [i = 1 .. length - 1] that computes [standardSequence]. *)
Fixpoint standardSequence (sortedCards : list ParsedCard) : bool :=
  match sortedCards with
  | prev :: (cur :: _) as rest =>
    if notNextValue prev cur then false else standardSequence rest
  | _ => true
  end.

Definition isAce (c : ParsedCard) : Prop := rank c = units "A".

#[global] Instance isAce_dec c : Decision (isAce c).
Proof. unfold isAce. apply _. Defined.

(** The body of [if (hasAce) { ... }], falling through to [return false]. *)
Definition aceHighSequence (sortedCards : list ParsedCard) : bool :=
  let hasAce := existsb (λ c, bool_decide (isAce c)) sortedCards in
  if hasAce then
    let nonAceRanks := rank <$> filter (λ c, ¬ isAce c) sortedCards in
    if length nonAceRanks =? length sortedCards - 1 then
      let expectedHighRanks := slice_last (length sortedCards - 1) RANK_ORDER in
      (length nonAceRanks =? length expectedHighRanks)
      && every_from (λ rank idx, bool_decide (expectedHighRanks !! idx = Some rank))
           0 nonAceRanks
    else false
  else false.

Definition isRun (cards : list ParsedCard) : bool :=
  if length cards <? 3 then false else
  match cards with
  | [] => false (* not reached: the length is at least 3 *)
  | card0 :: _ =>
    let firstSuit := suit card0 in
    if negb (forallb (λ card, bool_decide (suit card = firstSuit)) cards) then false else
    let sortedCards := sortByValue cards in
    if standardSequence sortedCards then true else
    aceHighSequence sortedCards
  end.

(** The same function, recording which [return true] was taken. *)
Inductive RunBranch := StandardRun | AceHighRun.

Definition isRunBranch (cards : list ParsedCard) : option RunBranch :=
  if length cards <? 3 then None else
  match cards with
  | [] => None
  | card0 :: _ =>
    let firstSuit := suit card0 in
    if negb (forallb (λ card, bool_decide (suit card = firstSuit)) cards) then None else
    let sortedCards := sortByValue cards in
    if standardSequence sortedCards then Some StandardRun else
    if aceHighSequence sortedCards then Some AceHighRun else None
  end.

(** ** Combination generator

    [backtrack] pushes onto [result]; the pushes of a call are returned in
    the order they are made.  [rest] is [array] from [startIndex] on. *)
Fixpoint backtrack {T} (k : nat) (rest : list T) (currentCombination : list T)
    : list (list T) :=
  if length currentCombination =? k then [currentCombination] else
  match rest with
  | [] => []
  | x :: rest' =>
    backtrack k rest' (currentCombination ++ [x]) ++ backtrack k rest' currentCombination
  end.

Definition getCombinations {T} (array : list T) (k : nat) : list (list T) :=
  backtrack k array [].

(** ** Win evaluator *)

Definition MIN_CARDS_PER_PLAYER : nat := 13.

Definition isMeld (combo : list ParsedCard) : bool := isSet combo || isRun combo.

Definition allPossibleMelds (cards : list ParsedCard) (size : nat)
    : list (list ParsedCard) :=
  if length cards <? size then [] else
  filter (λ combo, isMeld combo) (getCombinations cards size).

(** [new Set(meld.map(c => c.original))]. *)
Definition originalsOf (meld : list ParsedCard) : gset jsstring :=
  list_to_set (original <$> meld).

(** The inner [for] over [m3_two] that computes [areDisjoint]. *)
Definition areDisjoint (m3_one m3_two : list ParsedCard) : bool :=
  let m3_one_originals := originalsOf m3_one in
  forallb (λ cardInM3Two, negb (bool_decide (original cardInM3Two ∈ m3_one_originals)))
    m3_two.

(** [hand.filter(card => !meld4Originals.has(card.original))]. *)
Definition remainingAfter (hand meld4 : list ParsedCard) : list ParsedCard :=
  let meld4Originals := originalsOf meld4 in
  filter (λ card, original card ∉ meld4Originals) hand.

(** One iteration of [for (const meld4 of meldsOf4)]: [true] when it
    returns [true], [false] when it continues or falls through. *)
Definition tryMeld4 (hand meld4 : list ParsedCard) : bool :=
  let remainingCardsAfterMeld4 := remainingAfter hand meld4 in
  if negb (length remainingCardsAfterMeld4 =? MIN_CARDS_PER_PLAYER - 4) then false else
  let meldsOf3FromRemaining := allPossibleMelds remainingCardsAfterMeld4 3 in
  if length meldsOf3FromRemaining <? 2 then false else
  let combosOfTwoMeld3 := getCombinations meldsOf3FromRemaining 2 in
  existsb (λ pair,
    match pair with
    | m3_one :: m3_two :: _ => areDisjoint m3_one m3_two
    | _ => false (* not reached: every pair has two members *)
    end) combosOfTwoMeld3.

Definition checkWinningCondition (handStrings : list jsstring) : bool :=
  if negb (length handStrings =? MIN_CARDS_PER_PLAYER) then false else
  let hand := parseCard <$> handStrings in
  let meldsOf4 := allPossibleMelds hand 4 in
  existsb (tryMeld4 hand) meldsOf4.

(** ** Deck builder *)

(** A result of [Math.random()]: a number in the half-open unit interval,
    kept as an exact fraction. *)
Record Rand := mkRand { num : nat; den : nat; in_unit : num < den }.

(** [Math.floor(r * n)]. *)
Definition floorTimes (r : Rand) (n : nat) : nat := (num r * n) / den r.

(** [[l[i], l[j]] = [l[j], l[i]]].  Both indices are inside the array
    wherever the shuffle calls it ([swap_in_range] below), so the case in
    which JavaScript would store [undefined] is not reached. *)
Definition swap {A} (i j : nat) (l : list A) : list A :=
  match l !! j, l !! i with
  | Some atJ, Some atI => <[j := atI]> (<[i := atJ]> l)
  | _, _ => l
  end.

(** The loop [for (i = length - 1; i > 0; i--)], entered at [i] after
    [calls] draws from the generator [random]. *)
Fixpoint shuffleFrom (random : nat → Rand) (calls i : nat) (newDeck : list jsstring)
    : list jsstring :=
  match i with
  | 0 => newDeck
  | S i' =>
    let j := floorTimes (random calls) (i + 1) in
    shuffleFrom random (S calls) i' (swap i j newDeck)
  end.

Definition deckSuits : list jsstring := [spade; heart; diamond; club].

Definition deckValues : list jsstring :=
  units <$> ["A"; "2"; "3"; "4"; "5"; "6"; "7"; "8"; "9"; "10"; "J"; "Q"; "K"]%string.

(** The two inner loops: one pack, suit by suit. *)
Definition onePack : list jsstring :=
  suit ← deckSuits; value ← deckValues; [value ++ suit].

(** [Math.ceil(n / 2)] on a whole number. *)
Definition ceilHalf (n : nat) : nat := (n + 1) / 2.

Definition numDecksFor (numberOfPlayersForThisGame : nat) : nat :=
  Nat.max 1 (ceilHalf numberOfPlayersForThisGame).

Definition unshuffledDeck (numberOfPlayersForThisGame : nat) : list jsstring :=
  mjoin (replicate (numDecksFor numberOfPlayersForThisGame) onePack).

Definition createDeck (random : nat → Rand) (numberOfPlayersForThisGame : nat)
    : list jsstring :=
  let newDeck := unshuffledDeck numberOfPlayersForThisGame in
  shuffleFrom random 0 (length newDeck - 1) newDeck.

(** ** Table and turn handlers *)

Inductive Slot := bottom | top | left | right.

Record Position := mkPosition {
  posTop : option string;
  posBottom : option string;
  posLeft : option string;
  posRight : option string;
  posTransform : option string
}.

Record Player := mkPlayer {
  id : nat;
  name : string;
  cards : list jsstring;
  slot : Slot;
  position : Position
}.

(** [{ ...player, cards: newCards }]. *)
Definition withCards (player : Player) (newCards : list jsstring) : Player :=
  {| id := id player; name := name player; cards := newCards;
     slot := slot player; position := position player |}.

Record DiscardedCard := mkDiscardedCard { playerId : nat; card : jsstring }.

Definition MAX_CARDS_PER_PLAYER_LOGIC : nat := 14.

(** The component's state cells and its two refs. *)
Record Table := mkTable {
  players : list Player;
  discardedCards : list DiscardedCard;
  deck : list jsstring;
  currentPlayer : nat;
  draggedCardIndex : option nat;
  winner : option Player;
  canDeclare : bool;
  playersRef : list Player;
  currentPlayerRef : nat
}.

Inductive Message :=
| DeckIsEmpty
| TooManyCards
| CannotDiscard (have : nat)
| MustKeepDiscarding (have : nat)
| ShouldDeclare
| CannotSkip (have : nat)
| WinsTheGame (who : string)
| CannotDeclare.

(** What a handler does besides reading: [alert] calls and calls of the
    state setters, in the order it makes them. *)
Inductive Update :=
| alert (msg : Message)
| setPlayers (newPlayers : list Player)
| setDeck (f : list jsstring → list jsstring)
| setDiscardedCards (f : list DiscardedCard → list DiscardedCard)
| setCurrentPlayer (f : nat → nat)
| setWinner (w : option Player)
| setCanDeclare (b : bool).

Definition applyUpdate (t : Table) (u : Update) : Table :=
  match u with
  | alert _ => t
  | setPlayers ps =>
    mkTable ps (discardedCards t) (deck t) (currentPlayer t) (draggedCardIndex t)
      (winner t) (canDeclare t) (playersRef t) (currentPlayerRef t)
  | setDeck f =>
    mkTable (players t) (discardedCards t) (f (deck t)) (currentPlayer t)
      (draggedCardIndex t) (winner t) (canDeclare t) (playersRef t) (currentPlayerRef t)
  | setDiscardedCards f =>
    mkTable (players t) (f (discardedCards t)) (deck t) (currentPlayer t)
      (draggedCardIndex t) (winner t) (canDeclare t) (playersRef t) (currentPlayerRef t)
  | setCurrentPlayer f =>
    mkTable (players t) (discardedCards t) (deck t) (f (currentPlayer t))
      (draggedCardIndex t) (winner t) (canDeclare t) (playersRef t) (currentPlayerRef t)
  | setWinner w =>
    mkTable (players t) (discardedCards t) (deck t) (currentPlayer t)
      (draggedCardIndex t) w (canDeclare t) (playersRef t) (currentPlayerRef t)
  | setCanDeclare b =>
    mkTable (players t) (discardedCards t) (deck t) (currentPlayer t)
      (draggedCardIndex t) (winner t) b (playersRef t) (currentPlayerRef t)
  end.

Definition applyUpdates (t : Table) (us : list Update) : Table :=
  foldl applyUpdate t us.

(** The test both effects make before [setCanDeclare]. *)
Definition declarable (player : option Player) (winner : option Player) : bool :=
  match player with
  | Some p =>
    if (length (cards p) =? MIN_CARDS_PER_PLAYER) && negb (bool_decide (is_Some winner))
    then checkWinningCondition (cards p)
    else false
  | None => false
  end.

(** The effect on [[players, winner]]. *)
Definition effectOnPlayers (t : Table) : Table :=
  mkTable (players t) (discardedCards t) (deck t) (currentPlayer t)
    (draggedCardIndex t) (winner t)
    (declarable (players t !! currentPlayerRef t) (winner t))
    (players t) (currentPlayerRef t).

(** The effect on [[currentPlayer, winner]]. *)
Definition effectOnCurrentPlayer (t : Table) : Table :=
  mkTable (players t) (discardedCards t) (deck t) (currentPlayer t)
    (draggedCardIndex t) (winner t)
    (declarable (playersRef t !! currentPlayer t) (winner t))
    (playersRef t) (currentPlayer t).

(** Both effects, in declaration order.  React runs an effect only when
    one of its dependencies changed; an effect whose dependencies did not
    change would store what is already there, so running both after every
    handler gives the same table. *)
Definition effects (t : Table) : Table :=
  effectOnCurrentPlayer (effectOnPlayers t).

Definition drawCard (t : Table) : list Update :=
  if bool_decide (is_Some (winner t)) then [] else
  let currentPlayersArray := playersRef t in
  let currentPlayerIdx := currentPlayerRef t in
  let currentPlayerData := currentPlayersArray !! currentPlayerIdx in
  match deck t with
  | [] => [alert DeckIsEmpty]
  | newCard :: _ =>
    match currentPlayerData with
    | None => []
    | Some currentPlayerData =>
      if MAX_CARDS_PER_PLAYER_LOGIC <=? length (cards currentPlayerData)
      then [alert TooManyCards] else
      let updatedPlayers :=
        imap (λ index player,
                if index =? currentPlayerIdx
                then withCards player (cards player ++ [newCard])
                else player) currentPlayersArray in
      [setDeck (drop 1); setPlayers updatedPlayers]
    end
  end.

(** [!cards[i]]: the slot is missing, or holds the empty string. *)
Definition falsyCard (c : option jsstring) : bool :=
  match c with
  | None => true
  | Some s => bool_decide (s = [])
  end.

Definition discardCard (cardIndexToDiscard : nat) (t : Table) : list Update :=
  if bool_decide (is_Some (winner t)) then [] else
  if bool_decide (is_Some (draggedCardIndex t)) then [] else
  let currentPlayersArray := playersRef t in
  let currentPlayerIdx := currentPlayerRef t in
  match currentPlayersArray !! currentPlayerIdx with
  | None => []
  | Some currentPlayerData =>
    if falsyCard (cards currentPlayerData !! cardIndexToDiscard) then [] else
    if length (cards currentPlayerData) <=? MIN_CARDS_PER_PLAYER
    then [alert (CannotDiscard (length (cards currentPlayerData)))] else
    match cards currentPlayerData !! cardIndexToDiscard with
    | None => []
    | Some discardedItem =>
      let updatedPlayerList :=
        imap (λ index p,
                if index =? currentPlayerIdx
                then withCards p
                       (filter_from (λ i, negb (i =? cardIndexToDiscard)) 0 (cards p))
                else p) currentPlayersArray in
      let recordDiscard :=
        [setPlayers updatedPlayerList;
         setDiscardedCards
           (λ prev, prev ++ [mkDiscardedCard (id currentPlayerData) discardedItem])] in
      match updatedPlayerList !! currentPlayerIdx with
      | None => recordDiscard (* not reached: [map] keeps the length *)
      | Some playerAfterDiscard =>
        let cardsLeft := length (cards playerAfterDiscard) in
        let advanceTurn :=
          if cardsLeft =? MIN_CARDS_PER_PLAYER
          then negb (checkWinningCondition (cards playerAfterDiscard))
          else if MIN_CARDS_PER_PLAYER <? cardsLeft then false else true in
        (if negb (cardsLeft =? MIN_CARDS_PER_PLAYER) && (MIN_CARDS_PER_PLAYER <? cardsLeft)
         then [alert (MustKeepDiscarding cardsLeft)] else [])
        ++ recordDiscard
        ++ (if advanceTurn && (cardsLeft =? MIN_CARDS_PER_PLAYER)
            then [setCurrentPlayer (λ prev, (prev + 1) mod length updatedPlayerList)]
            else [])
      end
    end
  end.

Definition skipTurn (t : Table) : list Update :=
  if bool_decide (is_Some (winner t)) then [] else
  let latestPlayersArray := playersRef t in
  let latestPlayerIdx := currentPlayerRef t in
  match latestPlayersArray !! latestPlayerIdx with
  | None => []
  | Some playerState =>
    if length (cards playerState) =? MIN_CARDS_PER_PLAYER then
      if checkWinningCondition (cards playerState) then [alert ShouldDeclare] else
      [setCurrentPlayer (λ prevPlayerIdx, (prevPlayerIdx + 1) mod length latestPlayersArray)]
    else [alert (CannotSkip (length (cards playerState)))]
  end.

Definition declareWin (t : Table) : list Update :=
  if bool_decide (is_Some (winner t)) then [] else
  match players t !! currentPlayer t with
  | Some player =>
    if (length (cards player) =? MIN_CARDS_PER_PLAYER)
       && checkWinningCondition (cards player)
    then [setWinner (Some player); alert (WinsTheGame (name player))]
    else [alert CannotDeclare; setCanDeclare false]
  | None => [alert CannotDeclare; setCanDeclare false]
  end.

(** The four commands of a turn, and one round trip: the handler runs, its
    updates are applied, the effects run. *)
Inductive Command := Draw | Discard (cardIndex : nat) | Skip | DeclareWin.

Definition handler (c : Command) : Table → list Update :=
  match c with
  | Draw => drawCard
  | Discard i => discardCard i
  | Skip => skipTurn
  | DeclareWin => declareWin
  end.

Definition dispatch (c : Command) (t : Table) : Table :=
  effects (applyUpdates t (handler c t)).

Definition dispatchAll (cs : list Command) (t : Table) : Table :=
  foldl (λ t c, dispatch c t) t cs.

(** A table between two events: the effects have run, nothing is pending. *)
Definition atRest (t : Table) : Prop := effects t = t.

(** What the players see of a table. *)
Definition hands (t : Table) : list (list jsstring) := cards <$> players t.

Definition activePlayer (t : Table) : option Player := players t !! currentPlayer t.

(** ** Seats and a new game *)

(** [`${n}`] for a whole number. *)
Definition decimal (n : nat) : string := NilZero.string_of_uint (Nat.to_uint n).

Definition noPosition : Position := mkPosition None None None None None.

(** The [switch (i)] of [getPlayerPositions]; a fifth seat and beyond keep
    what [basePlayer] gives them. *)
Definition seatSlot (i : nat) : Slot * Position :=
  match i with
  | 0 => (bottom, mkPosition None (Some "15px") (Some "50%") None
                    (Some "translateX(-50%)"))
  | 1 => (right, mkPosition (Some "50%") None None (Some "15px")
                   (Some "translateY(-50%)"))
  | 2 => (top, mkPosition (Some "15px") None (Some "50%") None
                 (Some "translateX(-50%)"))
  | 3 => (left, mkPosition (Some "50%") None (Some "15px") None
                  (Some "translateY(-50%)"))
  | _ => (bottom, noPosition)
  end%string.

Definition getPlayerPositions (numPlayers : nat) : list Player :=
  (λ i, mkPlayer (i + 1) ("Player " ++ decimal (i + 1))%string []
          (seatSlot i).1 (seatSlot i).2) <$> seq 0 numPlayers.

(** [newPlayers.forEach(player => { player.cards = newDeck.splice(0,
    Math.min(cardsToDeal, newDeck.length)) })]: the players with their
    hands, and what is left of the deck. *)
Fixpoint dealHands (cardsToDeal : nat) (newPlayers : list Player)
    (newDeck : list jsstring) : list Player * list jsstring :=
  match newPlayers with
  | [] => ([], newDeck)
  | player :: others =>
    let count := Nat.min cardsToDeal (length newDeck) in
    let dealt := dealHands cardsToDeal others (drop count newDeck) in
    (withCards player (take count newDeck) :: dealt.1, dealt.2)
  end.

(** [startGame].  A setter called with a value stores that value whatever
    was there. *)
Definition startGame (random : nat → Rand) : list Update :=
  let numPlayers := 4 in
  let dealt := dealHands MIN_CARDS_PER_PLAYER (getPlayerPositions numPlayers)
                 (createDeck random numPlayers) in
  let newPlayers := dealt.1 in
  let newDeck := dealt.2 in
  [setPlayers newPlayers; setDeck (λ _, newDeck); setDiscardedCards (λ _, []);
   setCurrentPlayer (λ _, 0); setWinner None; setCanDeclare false]
  ++ match newPlayers !! 0 with
     | Some firstPlayer =>
       if (length (cards firstPlayer) =? MIN_CARDS_PER_PLAYER)
          && checkWinningCondition (cards firstPlayer)
       then [setCanDeclare true] else []
     | None => []
     end.

(** ** Moving a card within the hand *)

(** The drag handlers also call [setDraggedCardIndex]. *)
Inductive UiUpdate :=
| tableUpdate (u : Update)
| setDraggedCardIndex (v : option nat).

Definition applyUiUpdate (t : Table) (u : UiUpdate) : Table :=
  match u with
  | tableUpdate u => applyUpdate t u
  | setDraggedCardIndex v =>
    mkTable (players t) (discardedCards t) (deck t) (currentPlayer t) v
      (winner t) (canDeclare t) (playersRef t) (currentPlayerRef t)
  end.

Definition applyUiUpdates (t : Table) (us : list UiUpdate) : Table :=
  foldl applyUiUpdate t us.

(** What [handleDrop] reads of its event: the number
    [parseInt(e.dataTransfer.getData('draggedCardIndex'), 10)], [None]
    for [NaN]; whether [e.currentTarget === e.target]; and whether the
    current target carries the class of the hand area. *)
Record DropEvent := mkDropEvent {
  cardBeingDraggedIndex : option Z;
  onOwnTarget : bool;
  onHandArea : bool
}.

(** The start index [splice] works from: [NaN] is 0, a negative number
    counts from the end, and nothing lies beyond the length. *)
Definition spliceStart (start : option Z) (len : nat) : nat :=
  match start with
  | None => 0
  | Some z =>
    if (z <? 0)%Z then Z.to_nat (Z.max (Z.of_nat len + z) 0)
    else Nat.min (Z.to_nat z) len
  end.

(** [a === n] and [a < n] for a number [a] and a whole number [n]. *)
Definition numberIs (a : option Z) (n : nat) : bool :=
  match a with Some z => (z =? Z.of_nat n)%Z | None => false end.

Definition numberBelow (a : option Z) (n : nat) : bool :=
  match a with Some z => (z <? Z.of_nat n)%Z | None => false end.

Definition handleDragStart (index : nat) (t : Table) : list UiUpdate :=
  if bool_decide (is_Some (winner t)) then [] else
  [setDraggedCardIndex (Some index)].

Definition handleDragEnd (t : Table) : list UiUpdate :=
  if bool_decide (is_Some (winner t)) then [] else
  [setDraggedCardIndex None].

(** [handleDrop].  The result is [None] on the one path that leaves the
    type of a hand: the first [splice] removes nothing, because the number
    read from the event lies beyond the hand, and the second would put
    [undefined] among the tokens. *)
Definition handleDrop (e : DropEvent) (dropTargetIndex : nat) (t : Table)
    : option (list UiUpdate) :=
  if bool_decide (is_Some (winner t)) then Some [] else
  match draggedCardIndex t with
  | None => Some []
  | Some originalDraggedIndex =>
    let reset := [setDraggedCardIndex None] in
    if numberIs (cardBeingDraggedIndex e) dropTargetIndex && onOwnTarget e
    then Some reset else
    let currentPlayersArray := playersRef t in
    let currentPlayerIdx := currentPlayerRef t in
    match currentPlayersArray !! currentPlayerIdx with
    | None => Some reset
    | Some currentPlayerData =>
      let currentPlayerCards := cards currentPlayerData in
      if length currentPlayerCards <=? originalDraggedIndex then Some reset else
      let from := spliceStart (cardBeingDraggedIndex e) (length currentPlayerCards) in
      match currentPlayerCards !! from with
      | None => None
      | Some draggedItem =>
        let currentPlayerCards := delete from currentPlayerCards in
        let actualDropTargetIndex :=
          if numberBelow (cardBeingDraggedIndex e) dropTargetIndex
          then (Z.of_nat dropTargetIndex - 1)%Z else Z.of_nat dropTargetIndex in
        let actualDropTargetIndex :=
          if onHandArea e && (length (cards currentPlayerData) <=? dropTargetIndex)
          then Z.of_nat (length currentPlayerCards) else actualDropTargetIndex in
        let to := spliceStart (Some actualDropTargetIndex) (length currentPlayerCards) in
        let currentPlayerCards :=
          take to currentPlayerCards ++ draggedItem :: drop to currentPlayerCards in
        let updatedPlayers :=
          imap (λ index p,
                  if index =? currentPlayerIdx then withCards p currentPlayerCards
                  else p) currentPlayersArray in
        Some (reset ++ [tableUpdate (setPlayers updatedPlayers)])
      end
    end
  end.

(** ** What the page derives from the table *)

(** [discardedCards.length > 0 ? discardedCards[length - 1] : null]. *)
Definition lastDiscarded (t : Table) : option DiscardedCard :=
  if 0 <? length (discardedCards t)
  then discardedCards t !! (length (discardedCards t) - 1) else None.

Definition canDraw (t : Table) : bool :=
  negb (bool_decide (is_Some (winner t)))
  && match players t !! currentPlayer t with
     | Some currentPlayerDataForRender =>
       (0 <? length (deck t))
       && (length (cards currentPlayerDataForRender) <? MAX_CARDS_PER_PLAYER_LOGIC)
     | None => false
     end.

Definition canSkipButton (t : Table) : bool :=
  negb (bool_decide (is_Some (winner t)))
  && match players t !! currentPlayer t with
     | Some currentPlayerDataForRender =>
       length (cards currentPlayerDataForRender) =? MIN_CARDS_PER_PLAYER
     | None => false
     end.

(** The Declare Win button: it is drawn when there is an active player
    and no winner, and then [disabled] is
    [!canDeclare || !!winner || cards.length !== 13]. *)
Definition declareButtonEnabled (t : Table) : bool :=
  match players t !! currentPlayer t with
  | Some currentPlayerDataForRender =>
    negb (bool_decide (is_Some (winner t)))
    && negb (negb (canDeclare t) || bool_decide (is_Some (winner t))
             || negb (length (cards currentPlayerDataForRender) =? MIN_CARDS_PER_PLAYER))
  | None => false
  end.

(** ** The life of a table *)

(** The state cells and refs as [useState] and [useRef] create them. *)
Definition initialTable : Table := mkTable [] [] [] 0 None None false [] 0.

(** The table once the component has mounted: the effect
    [useEffect(() => { startGame(); }, [])] has run. *)
Definition newTable (random : nat → Rand) : Table :=
  effects (applyUpdates initialTable (startGame random)).

(** One event at the table, handled to the end: a command, or one of the
    drag events that move a card within the hand. *)
Inductive Step : Table → Table → Prop :=
| step_command c t : Step t (dispatch c t)
| step_dragStart index t :
    Step t (effects (applyUiUpdates t (handleDragStart index t)))
| step_dragEnd t : Step t (effects (applyUiUpdates t (handleDragEnd t)))
| step_drop e dropTargetIndex t us :
    handleDrop e dropTargetIndex t = Some us →
    Step t (effects (applyUiUpdates t us)).

(** The tables a game can show: the one dealt at mount, what an event
    makes of one, and what the New Game button makes of one. *)
Inductive played : Table → Prop :=
| played_new random : played (newTable random)
| played_step t t' : played t → Step t t' → played t'
| played_again random t :
    played t → played (effects (applyUpdates t (startGame random))).

(** ** The demo room of [src/components/GameRoom.tsx] *)

Module GameRoom.

(** [useState(['A♠', 'K♥', 'Q♦', 'J♣', '10♠'])]. *)
Definition initialCards : list jsstring :=
  [units "A" ++ spade; units "K" ++ heart; units "Q" ++ diamond;
   units "J" ++ club; units "10" ++ spade].

(** [drawCard]: the new value of [cards], from the two numbers
    [Math.random()] returns, the first for the suit and the second for the
    value.  [None] stands for an index outside its array, where the
    source would read [undefined]. *)
Definition drawCard (forSuit forValue : Rand) (cards : list jsstring)
    : option (list jsstring) :=
  let suits := [spade; heart; diamond; club] in
  let values := units <$> ["A"; "2"; "3"; "4"; "5"; "6"; "7"; "8"; "9"; "10";
                           "J"; "Q"; "K"]%string in
  randomSuit ← suits !! floorTimes forSuit (length suits);
  randomValue ← values !! floorTimes forValue (length values);
  Some (cards ++ [randomValue ++ randomSuit]).

End GameRoom.

(** * Vocabulary of the specification *)

(** ** Groups of cards *)

Definition redCount (cards : list ParsedCard) : nat :=
  length (filter (λ c, color c = red) cards).

Definition blackCount (cards : list ParsedCard) : nat :=
  length (filter (λ c, color c = black) cards).

Definition sameRank (cards : list ParsedCard) : Prop :=
  ∀ c1 c2, c1 ∈ cards → c2 ∈ cards → rank c1 = rank c2.

Definition sameSuit (cards : list ParsedCard) : Prop :=
  ∀ c1 c2, c1 ∈ cards → c2 ∈ cards → suit c1 = suit c2.

Definition sameColor (cards : list ParsedCard) : Prop :=
  ∀ c1 c2, c1 ∈ cards → c2 ∈ cards → color c1 = color c2.

(** The colour rule: 2-1 or 1-2 among three cards, 2-2 among four. *)
Definition colorSplit (cards : list ParsedCard) : Prop :=
  (length cards = 3 ∧
     ((redCount cards = 2 ∧ blackCount cards = 1)
      ∨ (redCount cards = 1 ∧ blackCount cards = 2)))
  ∨ (length cards = 4 ∧ redCount cards = 2 ∧ blackCount cards = 2).

(** A parsed card of the deck: its value is a number, the one
    [CARD_VALUES] gives for its rank. *)
Definition wellParsed (c : ParsedCard) : Prop :=
  is_Some (value c) ∧ value c = CARD_VALUES (rank c).

(** The number a card is sorted by. *)
Definition key (c : ParsedCard) : Z := default 0%Z (value c).

Definition byKey (a b : ParsedCard) : Prop := (key a ≤ key b)%Z.

(** The value of a rank. *)
Definition rankKey (r : jsstring) : Z := default 0%Z (CARD_VALUES r).

(** [m, m+1, ..., m+n-1]. *)
Fixpoint upFrom (m : Z) (n : nat) : list Z :=
  match n with
  | 0 => []
  | S n' => m :: upFrom (m + 1) n'
  end.

(** The values, in ascending order, are consecutive: they are the numbers
    [m .. m+n-1] in some order. *)
Definition consecutiveValues (cards : list ParsedCard) : Prop :=
  ∃ m, key <$> cards ≡ₚ upFrom m (length cards).

(** The ranks below the Ace, lowest first, and the [k] topmost of them. *)
Definition ranksBelowAce : list jsstring := drop 1 RANK_ORDER.

Definition topRanks (k : nat) : list jsstring :=
  drop (length ranksBelowAce - k) ranksBelowAce.

(** One Ace, and the other cards are exactly the topmost ranks below it. *)
Definition aceOnTop (cards : list ParsedCard) : Prop :=
  length (filter isAce cards) = 1
  ∧ length cards - 1 ≤ length ranksBelowAce
  ∧ rank <$> filter (λ c, ¬ isAce c) cards ≡ₚ topRanks (length cards - 1).

(** The thirteen hearts, Ace first. *)
Definition allHearts : list ParsedCard :=
  parseCard <$> ((λ r, r ++ heart) <$> RANK_ORDER).

(** ** Choosing cards from a hand *)

(** [Deal l a r]: the cards [a] are taken out of [l], the cards [r] stay;
    both keep the order they have in [l].  Choosing cards by position, two
    copies of one token in [l] remain two cards. *)
Inductive Deal {A} : list A → list A → list A → Prop :=
| deal_done : Deal [] [] []
| deal_take x l a r : Deal l a r → Deal (x :: l) (x :: a) r
| deal_leave x l a r : Deal l a r → Deal (x :: l) a (x :: r).

(** No token of [a] is a token of [b]. *)
Definition tokenDisjoint (a b : list ParsedCard) : Prop :=
  ∀ x y, x ∈ a → y ∈ b → original x ≠ original y.

(** No card left in [rest] carries a token of [meld]. *)
Definition tokensGone (meld rest : list ParsedCard) : Prop :=
  Forall (λ c, original c ∉ original <$> meld) rest.

(** A four-card meld, and among the nine other cards two three-card melds
    with no card in common; the last three cards are free. *)
Definition splitsByCard (hand : list ParsedCard) : Prop :=
  ∃ meld4 rest, Deal hand meld4 rest ∧ length meld4 = 4 ∧ isMeld meld4 = true
    ∧ ∃ one rest', Deal rest one rest' ∧ length one = 3 ∧ isMeld one = true
      ∧ ∃ two leftover, Deal rest' two leftover ∧ length two = 3
        ∧ isMeld two = true.

(** The same, with cards told apart by their tokens only: the four-card
    meld shares no token with the other nine cards, and the two three-card
    melds share no token with each other. *)
Definition splitsByToken (hand : list ParsedCard) : Prop :=
  ∃ meld4 rest, Deal hand meld4 rest ∧ length meld4 = 4 ∧ isMeld meld4 = true
    ∧ tokensGone meld4 rest
    ∧ ∃ one two, one `sublist_of` rest ∧ two `sublist_of` rest
      ∧ length one = 3 ∧ length two = 3
      ∧ isMeld one = true ∧ isMeld two = true ∧ tokenDisjoint one two.

(** ** Decks *)

(** The 52 tokens of a pack: every rank with every suit. *)
Definition canonicalTokens : list jsstring :=
  r ← RANK_ORDER; s ← [spade; heart; diamond; club]; [r ++ s].

(** How many cards of a deck carry a token. *)
Definition copies (token : jsstring) (deck : list jsstring) : nat :=
  length (filter (λ t, t = token) deck).

(** ** Tables *)

(** The setters that change what the spec calls the table state: the
    hands, the deck, the discard log, the turn and the winner. *)
Definition changesTable (u : Update) : bool :=
  match u with
  | alert _ | setCanDeclare _ => false
  | _ => true
  end.

(** A command is accepted when its handler changes the table, rejected
    when it only returns or warns. *)
Definition accepted (us : list Update) : bool := existsb changesTable us.

(** The handler hands the turn on. *)
Definition passesTurn (us : list Update) : bool :=
  existsb (λ u, match u with setCurrentPlayer _ => true | _ => false end) us.

(** The turn after [current] at a table of [n] players. *)
Definition nextTurn (current n : nat) : nat := (current + 1) mod n.

(** The two optional ends of a discard: the warning that more cards must
    go, and the hand-over of the turn. *)
Definition discardWarning (cardsLeft : nat) : list Update :=
  if negb (cardsLeft =? MIN_CARDS_PER_PLAYER) && (MIN_CARDS_PER_PLAYER <? cardsLeft)
  then [alert (MustKeepDiscarding cardsLeft)] else [].

Definition discardHandOver (handLeft : list jsstring) (n : nat) : list Update :=
  if (length handLeft =? MIN_CARDS_PER_PLAYER) && negb (checkWinningCondition handLeft)
  then [setCurrentPlayer (λ prev, (prev + 1) mod n)] else [].

(** ** Cards on the table *)

(** Every card on the table: the hands in seat order, the deck, and the
    cards of the discard log. *)
Definition allCards (t : Table) : list jsstring :=
  mjoin (hands t) ++ deck t ++ (card <$> discardedCards t).

(** A seat without its cards. *)
Definition seatOnly (p : Player) : Player := withCards p [].

(** The hand sizes the turn order allows: 13 or 14 cards for the player
    to move, 13 for everyone else. *)
Definition handSizesInOrder (t : Table) : Prop :=
  ∀ i p, players t !! i = Some p →
    if decide (i = currentPlayer t)
    then 13 ≤ length (cards p) ≤ 14
    else length (cards p) = 13.

(** What one event can do to the hands, the deck, the discard log, the
    turn and the winner. *)
Inductive Move (t t' : Table) : Prop :=
| move_none :
    players t' = players t → deck t' = deck t →
    discardedCards t' = discardedCards t →
    currentPlayer t' = currentPlayer t → winner t' = winner t → Move t t'
| move_draw newCard rest p :
    winner t = None → deck t = newCard :: rest → activePlayer t = Some p →
    length (cards p) < 14 →
    players t' = <[currentPlayer t := withCards p (cards p ++ [newCard])]> (players t) →
    deck t' = rest → discardedCards t' = discardedCards t →
    currentPlayer t' = currentPlayer t → winner t' = None → Move t t'
| move_discard i p c :
    winner t = None → activePlayer t = Some p → cards p !! i = Some c →
    13 < length (cards p) →
    players t' = <[currentPlayer t := withCards p (delete i (cards p))]> (players t) →
    deck t' = deck t →
    discardedCards t' = discardedCards t ++ [mkDiscardedCard (id p) c] →
    currentPlayer t'
    = (if (length (delete i (cards p)) =? 13)
          && negb (checkWinningCondition (delete i (cards p)))
       then nextTurn (currentPlayer t) (length (players t))
       else currentPlayer t) →
    winner t' = None → Move t t'
| move_skip p :
    winner t = None → activePlayer t = Some p → length (cards p) = 13 →
    checkWinningCondition (cards p) = false →
    players t' = players t → deck t' = deck t →
    discardedCards t' = discardedCards t →
    currentPlayer t' = nextTurn (currentPlayer t) (length (players t)) →
    winner t' = None → Move t t'
| move_declare p :
    winner t = None → activePlayer t = Some p → length (cards p) = 13 →
    checkWinningCondition (cards p) = true →
    players t' = players t → deck t' = deck t →
    discardedCards t' = discardedCards t →
    currentPlayer t' = currentPlayer t → winner t' = Some p → Move t t'
| move_reorder p hand :
    winner t = None → activePlayer t = Some p → hand ≡ₚ cards p →
    players t' = <[currentPlayer t := withCards p hand]> (players t) →
    deck t' = deck t → discardedCards t' = discardedCards t →
    currentPlayer t' = currentPlayer t → winner t' = None → Move t t'.

(** The seats are the four of a new game and the turn is at one of them. *)
Definition wellSeated (t : Table) : Prop :=
  seatOnly <$> players t = getPlayerPositions 4 ∧ currentPlayer t < 4.

(** A winner, once set, is the player to move and holds 13 winning cards. *)
Definition winnerHoldsWin (t : Table) : Prop :=
  ∀ w, winner t = Some w →
    activePlayer t = Some w ∧ length (cards w) = 13
    ∧ checkWinningCondition (cards w) = true.

(** What holds of every table of a game. *)
Definition gameInvariant (t : Table) : Prop :=
  atRest t ∧ wellSeated t ∧ allCards t ≡ₚ unshuffledDeck 4
  ∧ handSizesInOrder t ∧ winnerHoldsWin t.

(** ** Counting *)

(** The number of ways to choose [k] things out of [n], by Pascal's rule. *)
Fixpoint choose (n k : nat) : nat :=
  match n, k with
  | _, 0 => 1
  | 0, S _ => 0
  | S n', S k' => choose n' k' + choose n' k
  end.

(** ** Sample cards and hands *)

(** A Queen, an Ace and a King of hearts: a run with the Ace on top. *)
Definition queenAceKing : list ParsedCard :=
  parseCard <$> [units "Q" ++ heart; units "A" ++ heart; units "K" ++ heart].

(** A hand of thirteen distinct tokens that wins. *)
Definition winningHand : list jsstring :=
  [units "A" ++ spade; units "2" ++ spade; units "3" ++ spade; units "4" ++ spade;
   units "K" ++ heart; units "K" ++ diamond; units "K" ++ club;
   units "Q" ++ heart; units "Q" ++ diamond; units "Q" ++ spade;
   units "4" ++ club; units "9" ++ club; units "7" ++ diamond].

(** A hand dealt from two packs: it holds the Ace of spades twice. *)
Definition twoAcesHand : list jsstring :=
  [units "A" ++ spade; units "2" ++ spade; units "3" ++ spade; units "4" ++ spade;
   units "A" ++ spade;
   units "6" ++ heart; units "7" ++ heart; units "8" ++ heart;
   units "9" ++ diamond; units "10" ++ diamond; units "J" ++ diamond;
   units "K" ++ club; units "2" ++ club].

(** The run A-2-3-4 of spades that opens both hands. *)
Definition aceToFour : list ParsedCard := parseCard <$> take 4 winningHand.

(** A generator that always answers one half. *)
Definition alwaysHalf (call : nat) : Rand := mkRand 1 2 (le_n 2).

(** A hand of thirteen distinct tokens that holds no meld at all. *)
Definition plainHand : list jsstring :=
  [units "A" ++ spade; units "3" ++ spade; units "5" ++ spade; units "7" ++ spade;
   units "9" ++ spade; units "J" ++ spade; units "K" ++ spade;
   units "2" ++ heart; units "4" ++ heart; units "6" ++ heart; units "8" ++ heart;
   units "10" ++ heart; units "Q" ++ heart].

Definition seat (n : nat) (hand : list jsstring) : Player :=
  mkPlayer n "Player" hand bottom (mkPosition None None None None None).

(** A table between two events, first seat to move, nothing discarded. *)
Definition tableOf (ps : list Player) (deck : list jsstring) : Table :=
  effects (mkTable ps [] deck 0 None None false ps 0).

(** The first seat holds thirteen cards and no meld; two cards are left
    in the deck. *)
Definition quietTable : Table :=
  tableOf [seat 1 plainHand; seat 2 winningHand]
    [units "9" ++ diamond; units "5" ++ club].

(** The first seat has drawn and holds fourteen cards. *)
Definition fullTable : Table :=
  tableOf [seat 1 (plainHand ++ [units "9" ++ diamond]); seat 2 winningHand]
    [units "5" ++ club].

(** The first seat holds a winning hand. *)
Definition wonTable : Table :=
  tableOf [seat 1 winningHand; seat 2 plainHand] [units "5" ++ club].

(** Three Kings, two red and one black. *)
Definition threeKings : list ParsedCard :=
  parseCard <$> [units "K" ++ heart; units "K" ++ diamond; units "K" ++ club].

(** A generator so close to one that the shuffle leaves every card where
    it is. *)
Definition almostOne (call : nat) : Rand := mkRand 1000 1001 (le_n 1001).

(** The first seat of that unshuffled deal: the thirteen spades. *)
Definition spadesSeat : Player :=
  mkPlayer 1 "Player 1" (take 13 onePack) bottom (seatSlot 0).2.

(** The table after that deal and a declaration by the first seat. *)
Definition declaredTable : Table := dispatch DeclareWin (newTable almostOne).

(** The quiet table with the first card of the hand picked up. *)
Definition draggingTable : Table :=
  effects (applyUiUpdates quietTable (handleDragStart 0 quietTable)).

(** * Properties *)

(** ** Worked examples *)

Example parse_ten_of_hearts :
  parseCard (units "10" ++ heart)
  = mkParsedCard (units "10" ++ heart) (units "10") heart (Some 10%Z) red.
Proof. reflexivity. Qed.

Example parse_ace_of_spades :
  parseCard (units "A" ++ spade)
  = mkParsedCard (units "A" ++ spade) (units "A") spade (Some 1%Z) black.
Proof. reflexivity. Qed.

Example three_kings_are_a_set :
  isSet (parseCard <$> [units "K" ++ heart; units "K" ++ diamond; units "K" ++ club])
  = true.
Proof. reflexivity. Qed.

Example three_red_or_four_uneven_kings_are_no_set :
  isSet (parseCard <$> [units "K" ++ heart; units "K" ++ diamond; units "K" ++ heart])
  = false
  ∧ isSet (parseCard <$> [units "K" ++ heart; units "K" ++ diamond;
                          units "K" ++ heart; units "K" ++ club])
    = false.
Proof. split; reflexivity. Qed.

Example pairs_of_three :
  getCombinations [1; 2; 3] 2 = [[1; 2]; [1; 3]; [2; 3]].
Proof. reflexivity. Qed.

Example winningHand_wins :
  checkWinningCondition winningHand = true
  ∧ checkWinningCondition (reverse winningHand) = true.
Proof. split; by vm_compute. Qed.

Example plainHand_loses : checkWinningCondition plainHand = false.
Proof. by vm_compute. Qed.

Example twelve_cards_lose : checkWinningCondition (drop 1 winningHand) = false.
Proof. reflexivity. Qed.

(** ** Lists *)

Section Lists.

Context {A : Type} (P : A → Prop) `{!∀ x, Decision (P x)}.

Lemma filter_none (l : list A) : Forall (λ x, ¬ P x) l → filter P l = [].
Proof.
  induction 1 as [|x l Hx _ IH]; [done|].
  by rewrite filter_cons_False.
Qed.

Lemma filter_all (l : list A) : Forall P l → filter P l = l.
Proof.
  induction 1 as [|x l Hx _ IH]; [done|].
  by rewrite filter_cons_True, IH.
Qed.

Lemma filter_full_length (l : list A) :
  length (filter P l) = length l → Forall P l.
Proof.
  induction l as [|x l IH]; [constructor|].
  rewrite filter_cons. case_decide; simpl; intros Hlen.
  - constructor; [done|]. apply IH. lia.
  - pose proof (length_filter P l). lia.
Qed.

End Lists.

(** ** The set rule *)

Section SetRule.

Implicit Types cards : list ParsedCard.

Lemma forallb_first {B} `{!EqDecision B} (f : ParsedCard → B) c0 cards :
  forallb (λ c, bool_decide (f c = f c0)) (c0 :: cards) = true
  ↔ ∀ c1 c2, c1 ∈ c0 :: cards → c2 ∈ c0 :: cards → f c1 = f c2.
Proof.
  rewrite forallb_forall. split.
  - intros H c1 c2 H1 H2.
    apply list_elem_of_In, H, bool_decide_eq_true in H1.
    apply list_elem_of_In, H, bool_decide_eq_true in H2. congruence.
  - intros H c Hc. apply bool_decide_eq_true, H.
    + by apply list_elem_of_In.
    + left.
Qed.

Lemma color_counts cards : redCount cards + blackCount cards = length cards.
Proof.
  unfold redCount, blackCount. induction cards as [|c cards IH]; [done|].
  rewrite !filter_cons. destruct (color c) eqn:E; repeat case_decide; try done; simpl; lia.
Qed.

Lemma sameColor_counts cards :
  sameColor cards → redCount cards = 0 ∨ blackCount cards = 0.
Proof.
  unfold sameColor, redCount, blackCount. intros H.
  destruct cards as [|c0 cards]; [by left|].
  destruct (color c0) eqn:E0; [right | left].
  all: rewrite filter_none; [done|].
  all: apply Forall_forall; intros c Hc Hcol.
  all: specialize (H c0 c); rewrite E0, Hcol in H.
  all: by (discriminate H; [left | done]).
Qed.

Lemma isSet_true cards :
  isSet cards = true
  ↔ (length cards = 3 ∨ length cards = 4) ∧ sameRank cards ∧ colorSplit cards.
Proof.
  unfold isSet, colorSplit. fold (redCount cards) (blackCount cards).
  destruct cards as [|c0 cards'] eqn:Ecards.
  { simpl. split; [done|]. intros [[?|?] _]; done. }
  rewrite <- Ecards. set (n := length cards).
  assert (forallb (λ c, bool_decide (rank c = rank c0)) cards = true ↔ sameRank cards)
    as Hrank by (rewrite Ecards; apply (forallb_first rank)).
  destruct (forallb _ cards) eqn:Eall; simpl.
  - assert (sameRank cards) as Hsame by by apply Hrank.
    destruct (n <? 3) eqn:E3; [apply Nat.ltb_lt in E3 | apply Nat.ltb_ge in E3];
      simpl; [split; [done | lia]|].
    destruct (4 <? n) eqn:E4; [apply Nat.ltb_lt in E4 | apply Nat.ltb_ge in E4];
      simpl; [split; [done | lia]|].
    destruct (n =? 3) eqn:En3; [apply Nat.eqb_eq in En3 | apply Nat.eqb_neq in En3].
    + rewrite orb_true_iff, !andb_true_iff, !Nat.eqb_eq. split.
      * intros Hc. split; [by left|]. split; [done|]. left. by split.
      * intros (_ & _ & [[_ Hc]|[? _]]); [done | lia].
    + assert (n = 4) as En4 by lia. rewrite En4. simpl.
      rewrite !andb_true_iff, !Nat.eqb_eq. split.
      * intros Hc. split; [by right|]. split; [done|]. right. by split.
      * intros (_ & _ & [[? _]|[_ Hc]]); [lia | done].
  - split.
    + destruct (_ || _); done.
    + intros (_ & Hsame & _). apply Hrank in Hsame. done.
Qed.

End SetRule.

(** C4.  [isSet] accepts a group exactly when it has three or four cards,
    all of one rank, with a red/black split of 2-1 or 1-2 among three
    cards and of 2-2 among four; a triple of one rank and one colour is
    rejected. *)
Theorem isSet_color_balance (cards : list ParsedCard) :
  (isSet cards = true
   ↔ (length cards = 3 ∨ length cards = 4) ∧ sameRank cards ∧ colorSplit cards)
  ∧ (length cards = 3 ∧ sameRank cards ∧ sameColor cards → isSet cards = false).
Proof.
  split; [apply isSet_true|].
  intros (Hlen & _ & Hcol). apply not_true_is_false. rewrite isSet_true.
  intros (_ & _ & Hsplit).
  pose proof (sameColor_counts _ Hcol) as Hzero.
  unfold colorSplit in Hsplit. lia.
Qed.

(** ** The run rule *)

Section Sorting.

Implicit Types cards l : list ParsedCard.

Lemma sortsBefore_key a b :
  is_Some (value a) → is_Some (value b) →
  sortsBefore a b = bool_decide (key a ≤ key b)%Z.
Proof.
  intros [x Hx] [y Hy]. unfold sortsBefore, compareValue, key.
  rewrite Hx, Hy. simpl.
  destruct (Z.leb_spec (x - y) 0); symmetry;
    [apply bool_decide_eq_true | apply bool_decide_eq_false]; lia.
Qed.

Lemma sortInsert_perm a l : sortInsert a l ≡ₚ a :: l.
Proof.
  induction l as [|b l IH]; simpl; [done|].
  destruct (sortsBefore a b); [done|].
  rewrite IH. apply Permutation_swap.
Qed.

Lemma sortByValue_perm cards : sortByValue cards ≡ₚ cards.
Proof.
  induction cards as [|a cards IH]; simpl; [done|].
  by rewrite sortInsert_perm, IH.
Qed.

Lemma sortByValue_length cards : length (sortByValue cards) = length cards.
Proof. apply Permutation_length, sortByValue_perm. Qed.

Lemma sortInsert_sorted a l :
  is_Some (value a) → Forall (λ c, is_Some (value c)) l →
  StronglySorted byKey l → StronglySorted byKey (sortInsert a l).
Proof.
  intros Ha Hl Hs. induction Hs as [|b l Hs IH Hb]; simpl.
  { repeat constructor. }
  inversion_clear Hl as [|? ? Hvb Hl'].
  rewrite sortsBefore_key by done. case_bool_decide as Hab.
  - constructor; [by constructor|]. constructor; [done|].
    eapply Forall_impl; [exact Hb|]. unfold byKey. intros; lia.
  - constructor; [by apply IH|].
    rewrite sortInsert_perm. constructor; [|done]. unfold byKey. lia.
Qed.

Lemma sortByValue_sorted cards :
  Forall (λ c, is_Some (value c)) cards → StronglySorted byKey (sortByValue cards).
Proof.
  induction 1 as [|a cards Ha Hl IH]; simpl; [constructor|].
  apply sortInsert_sorted; [done| |done].
  by rewrite sortByValue_perm.
Qed.

Lemma StronglySorted_filter {A} (R : relation A) (P : A → Prop)
    `{!∀ x, Decision (P x)} (l : list A) :
  StronglySorted R l → StronglySorted R (filter P l).
Proof.
  induction 1 as [|x l _ IH Hx]; [constructor|].
  rewrite filter_cons. case_decide; [|done].
  constructor; [done|]. apply Forall_forall. intros y [_ Hy]%list_elem_of_filter.
  rewrite Forall_forall in Hx. by apply Hx.
Qed.

End Sorting.

Section RunRule.

Implicit Types cards l : list ParsedCard.

Lemma key_value c : is_Some (value c) → value c = Some (key c).
Proof. intros [v Hv]. unfold key. by rewrite Hv. Qed.

Lemma notNextValue_key a b :
  is_Some (value a) → is_Some (value b) →
  notNextValue a b = negb (key b =? key a + 1)%Z.
Proof.
  intros Ha%key_value Hb%key_value. unfold notNextValue. by rewrite Ha, Hb.
Qed.

Lemma standardSequence_cons2 a b l :
  standardSequence (a :: b :: l)
  = if notNextValue a b then false else standardSequence (b :: l).
Proof. done. Qed.

Lemma standardSequence_from a l :
  Forall (λ c, is_Some (value c)) (a :: l) →
  standardSequence (a :: l) = true
  ↔ key <$> a :: l = upFrom (key a) (S (length l)).
Proof.
  revert a. induction l as [|b l IH]; intros a Hnum; [done|].
  inversion Hnum as [|? ? Ha Hnum']; subst.
  inversion Hnum' as [|? ? Hb _]; subst.
  rewrite standardSequence_cons2, notNextValue_key by done.
  change (key <$> a :: b :: l) with (key a :: (key <$> b :: l)).
  change (upFrom (key a) (S (length (b :: l))))
    with (key a :: upFrom (key a + 1) (S (length l))).
  destruct (Z.eqb_spec (key b) (key a + 1)) as [E|E]; cbn [negb].
  - rewrite IH by done. rewrite <- E. split; [by intros ->|].
    intros H. by simplify_eq.
  - split; [done|]. intros H. simplify_eq/=.
Qed.

Lemma standardSequence_upFrom l :
  Forall (λ c, is_Some (value c)) l →
  standardSequence l = true ↔ ∃ m, key <$> l = upFrom m (length l).
Proof.
  destruct l as [|a l]; intros Hnum.
  { split; [by exists 0%Z | done]. }
  rewrite standardSequence_from by done. split; [by eexists|].
  intros [m Hm]. rewrite Hm. cbn [length upFrom] in *.
  change (key <$> a :: l) with (key a :: (key <$> l)) in Hm.
  by injection Hm as -> _.
Qed.

Lemma upFrom_ge m n x : x ∈ upFrom m n → (m ≤ x)%Z.
Proof.
  revert m. induction n as [|n IH]; intros m; simpl; [by inversion 1|].
  intros [->|Hx%IH]%elem_of_cons; lia.
Qed.

Lemma upFrom_sorted m n : StronglySorted Z.le (upFrom m n).
Proof.
  revert m. induction n as [|n IH]; intros m; simpl; constructor; [done|].
  apply Forall_forall. intros x Hx%upFrom_ge. lia.
Qed.

Lemma keys_sorted cards :
  Forall (λ c, is_Some (value c)) cards →
  StronglySorted Z.le (key <$> sortByValue cards).
Proof.
  intros Hnum. eapply StronglySorted_fmap; [|by apply sortByValue_sorted].
  done.
Qed.

Lemma standard_consecutive cards :
  Forall (λ c, is_Some (value c)) cards →
  standardSequence (sortByValue cards) = true ↔ consecutiveValues cards.
Proof.
  intros Hnum. unfold consecutiveValues.
  rewrite standardSequence_upFrom by by rewrite sortByValue_perm.
  rewrite sortByValue_length. split; intros [m Hm]; exists m.
  - by rewrite <- Hm, sortByValue_perm.
  - apply (StronglySorted_unique Z.le).
    + by apply keys_sorted.
    + apply upFrom_sorted.
    + by rewrite sortByValue_perm.
Qed.

Lemma every_from_lookup (e : list jsstring) k (l : list jsstring) :
  every_from (λ r idx, bool_decide (e !! idx = Some r)) k l = true
  ↔ ∀ i r, l !! i = Some r → e !! (k + i) = Some r.
Proof.
  revert k. induction l as [|x l IH]; intros k; simpl.
  { split; [|done]. intros _ i r. by rewrite lookup_nil. }
  rewrite andb_true_iff, bool_decide_eq_true, IH. split.
  - intros [Hx Hl] [|i] r; simpl.
    + rewrite Nat.add_0_r. by intros [= <-].
    + intros Hi. replace (k + S i) with (S k + i) by lia. by apply Hl.
  - intros H. split.
    + specialize (H 0 x). rewrite Nat.add_0_r in H. by apply H.
    + intros i r Hi. replace (S k + i) with (k + S i) by lia. by apply H.
Qed.

Lemma every_from_eq (e l : list jsstring) :
  (length l =? length e)
  && every_from (λ r idx, bool_decide (e !! idx = Some r)) 0 l = true
  ↔ l = e.
Proof.
  rewrite andb_true_iff, Nat.eqb_eq, every_from_lookup. split.
  - intros [Hlen H]. apply list_eq. intros i.
    destruct (l !! i) as [r|] eqn:Hi.
    + symmetry. by apply (H i r).
    + symmetry. apply lookup_ge_None. apply lookup_ge_None in Hi. lia.
  - intros ->. done.
Qed.

Lemma ace_count l :
  length (filter isAce l) + length (filter (λ c, ¬ isAce c) l) = length l.
Proof.
  rewrite <- length_app. apply Permutation_length, filter_app_complement.
Qed.

Lemma hasAce_count l :
  existsb (λ c, bool_decide (isAce c)) l = true ↔ 0 < length (filter isAce l).
Proof.
  induction l as [|c l IH]; simpl; [split; [done | lia]|].
  rewrite filter_cons, orb_true_iff, IH, bool_decide_eq_true.
  case_decide; simpl; [split; [lia | by left]|].
  split; [by intros [?|?] | by right].
Qed.

(** What the Ace-high block checks of the sorted cards. *)
Lemma aceHighSequence_true l :
  aceHighSequence l = true
  ↔ length (filter isAce l) = 1
    ∧ rank <$> filter (λ c, ¬ isAce c) l = slice_last (length l - 1) RANK_ORDER.
Proof.
  unfold aceHighSequence. pose proof (ace_count l) as Hcount.
  pose proof (hasAce_count l) as Hhas.
  destruct (existsb _ l).
  - assert (0 < length (filter isAce l)) as Hpos by by apply Hhas.
    rewrite length_fmap.
    destruct (Nat.eqb_spec (length (filter (λ c, ¬ isAce c) l)) (length l - 1))
      as [E|E].
    + rewrite <- (length_fmap rank), every_from_eq. split.
      * intros ->. split; [lia | done].
      * by intros [_ ->].
    + split; [done|]. intros [? _]. lia.
  - split; [done|]. intros [Hone _].
    destruct Hhas as [_ Hhas]. rewrite Hone in Hhas. discriminate Hhas. lia.
Qed.

Lemma slice_last_top k :
  1 ≤ k ≤ length ranksBelowAce → slice_last k RANK_ORDER = topRanks k.
Proof.
  intros Hk. unfold slice_last, topRanks, ranksBelowAce in *.
  destruct (Nat.eqb_spec k 0); [lia|].
  rewrite drop_drop. f_equal. rewrite length_drop in *. lia.
Qed.

Lemma slice_last_whole k :
  length ranksBelowAce < k → slice_last k RANK_ORDER = RANK_ORDER.
Proof.
  intros Hk. unfold slice_last. change (length ranksBelowAce) with 12 in Hk.
  destruct (Nat.eqb_spec k 0); [done|].
  by replace (length RANK_ORDER - k) with 0 by (change (length RANK_ORDER) with 13; lia).
Qed.

Lemma StronglySorted_drop {A} (R : relation A) n (l : list A) :
  StronglySorted R l → StronglySorted R (drop n l).
Proof.
  intros Hl. rewrite <- (take_drop n l) in Hl.
  by apply StronglySorted_app_1_r in Hl.
Qed.

Lemma topRanks_sorted k : StronglySorted Z.le (rankKey <$> topRanks k).
Proof.
  unfold topRanks. rewrite fmap_drop. apply StronglySorted_drop.
  change (rankKey <$> ranksBelowAce) with (upFrom 2 12). apply upFrom_sorted.
Qed.

Lemma topRanks_rank k r : r ∈ topRanks k → r ∈ RANK_ORDER.
Proof.
  intros Hr. eapply elem_of_sublist; [|apply (sublist_drop _ 1)].
  eapply elem_of_sublist; [exact Hr | apply sublist_drop].
Qed.

Lemma rankKey_inj r1 r2 :
  r1 ∈ RANK_ORDER → r2 ∈ RANK_ORDER → rankKey r1 = rankKey r2 → r1 = r2.
Proof.
  assert (Forall (λ r1, Forall (λ r2, rankKey r1 = rankKey r2 → r1 = r2) RANK_ORDER)
            RANK_ORDER) as H.
  { repeat first [apply Forall_nil_2 | apply Forall_cons_2];
      intros Heq; first [reflexivity | by vm_compute in Heq]. }
  rewrite Forall_forall in H. intros H1 H2. specialize (H r1 H1).
  rewrite Forall_forall in H. by apply H.
Qed.

Lemma fmap_inj_on {A B} (f : A → B) (l1 l2 : list A) :
  (∀ x y, x ∈ l1 → y ∈ l2 → f x = f y → x = y) →
  f <$> l1 = f <$> l2 → l1 = l2.
Proof.
  revert l2. induction l1 as [|x l1 IH]; intros [|y l2] Hinj Heq; try done.
  injection Heq as Hxy Heq. f_equal.
  - apply Hinj; [left | left | done].
  - apply IH; [|done]. intros x' y' Hx' Hy'. apply Hinj; by right.
Qed.

Lemma wellParsed_keys l :
  Forall wellParsed l → key <$> l = rankKey <$> (rank <$> l).
Proof.
  intros Hwp. rewrite <- list_fmap_compose. apply Forall_fmap_ext_1.
  eapply Forall_impl; [exact Hwp|]. intros c [_ Hc].
  unfold key, rankKey. simpl. by rewrite Hc.
Qed.

Lemma wellParsed_numbered l :
  Forall wellParsed l → Forall (λ c, is_Some (value c)) l.
Proof. intros H. eapply Forall_impl; [exact H|]. by intros c [? _]. Qed.

Lemma aceHigh_aceOnTop cards :
  Forall wellParsed cards → 2 ≤ length cards →
  aceHighSequence (sortByValue cards) = true ↔ aceOnTop cards.
Proof.
  intros Hwp Hlen. rewrite aceHighSequence_true, sortByValue_length.
  unfold aceOnTop. rewrite (sortByValue_perm cards) at 1.
  set (k := length cards - 1).
  set (sortedRest := filter (λ c, ¬ isAce c) (sortByValue cards)).
  assert (rank <$> sortedRest ≡ₚ rank <$> filter (λ c, ¬ isAce c) cards) as Hperm.
  { unfold sortedRest. by rewrite sortByValue_perm. }
  split.
  - intros [Hone Hrest]. split; [done|].
    destruct (decide (k ≤ length ranksBelowAce)) as [Hk|Hk].
    + split; [done|]. rewrite <- Hperm, Hrest.
      by rewrite slice_last_top by lia.
    + exfalso. rewrite slice_last_whole in Hrest by lia.
      assert (units "A" ∈ rank <$> sortedRest) as Hin by (rewrite Hrest; left).
      apply list_elem_of_fmap in Hin as (c & Hc & [Hna _]%list_elem_of_filter).
      by apply Hna.
  - intros (Hone & Hk & Hrest). split; [done|].
    rewrite slice_last_top by lia.
    assert (Forall wellParsed sortedRest) as Hwp'.
    { unfold sortedRest. apply Forall_forall.
      intros c [_ Hc]%list_elem_of_filter. rewrite sortByValue_perm in Hc.
      rewrite Forall_forall in Hwp. by apply Hwp. }
    apply (fmap_inj_on rankKey).
    + intros r1 r2 H1 H2. rewrite Hperm, Hrest in H1.
      apply rankKey_inj; by eapply topRanks_rank.
    + apply (StronglySorted_unique Z.le).
      * rewrite <- wellParsed_keys by done.
        eapply StronglySorted_fmap; [|apply StronglySorted_filter,
          sortByValue_sorted, wellParsed_numbered, Hwp].
        done.
      * apply topRanks_sorted.
      * by rewrite Hperm, Hrest.
Qed.

Lemma isRun_branch cards : isRun cards = true ↔ is_Some (isRunBranch cards).
Proof.
  unfold isRun, isRunBranch.
  destruct (length cards <? 3); [by rewrite is_Some_alt|].
  destruct cards as [|c0 cards']; [by rewrite is_Some_alt|].
  destruct (negb _); [by rewrite is_Some_alt|]. cbv zeta.
  destruct (standardSequence _); [by rewrite is_Some_alt|].
  destruct (aceHighSequence _); by rewrite is_Some_alt.
Qed.

(** Which [return] a group of parsed cards reaches. *)
Lemma isRunBranch_cases cards :
  Forall wellParsed cards →
  (isRunBranch cards = Some StandardRun
   ↔ 3 ≤ length cards ∧ sameSuit cards ∧ consecutiveValues cards)
  ∧ (isRunBranch cards = Some AceHighRun
     ↔ 3 ≤ length cards ∧ sameSuit cards
       ∧ ¬ consecutiveValues cards ∧ aceOnTop cards).
Proof.
  intros Hwp. unfold isRunBranch.
  destruct (Nat.ltb_spec (length cards) 3) as [Hlen|Hlen].
  { split; (split; [done | lia]). }
  destruct cards as [|c0 cards']; [simpl in Hlen; lia|].
  cbv beta iota. remember (c0 :: cards') as cards eqn:Ecards.
  assert (forallb (λ c, bool_decide (suit c = suit c0)) cards = true ↔ sameSuit cards)
    as Hsuit by (rewrite Ecards; apply (forallb_first suit)).
  destruct (forallb _ cards); cbn [negb].
  2: { split; (split; [done|]); intros (_ & Hs & _); by apply Hsuit in Hs. }
  assert (sameSuit cards) as Hsame by by apply Hsuit.
  cbv zeta.
  pose proof (standard_consecutive cards (wellParsed_numbered _ Hwp)) as Hstd.
  pose proof (aceHigh_aceOnTop cards Hwp ltac:(lia)) as Hace.
  destruct (standardSequence _).
  - assert (consecutiveValues cards) as Hcons by by apply Hstd.
    split; [done|]. split; [done|]. by intros (_ & _ & Hn & _).
  - assert (¬ consecutiveValues cards) as Hcons.
    { intros H. by apply Hstd in H. }
    split; [split; [by destruct (aceHighSequence _) | by intros (_ & _ & ?)]|].
    destruct (aceHighSequence _).
    + split; [|done]. intros _. split; [done|]. split; [done|].
      split; [done|]. by apply Hace.
    + split; [done|]. intros (_ & _ & _ & H). by apply Hace in H.
Qed.

End RunRule.

(** C5.  On parsed cards, [isRun] accepts a group exactly when it has at
    least three cards of one suit whose values are consecutive, or which
    hold one Ace next to the topmost ranks below it.  The Ace-high return
    is reached only by groups that fail the consecutive test, so a group is
    accepted through one of the two readings of the Ace, never both. *)
Theorem isRun_meaning (cards : list ParsedCard) :
  Forall wellParsed cards →
  (isRun cards = true
   ↔ 3 ≤ length cards ∧ sameSuit cards
     ∧ (consecutiveValues cards ∨ aceOnTop cards))
  ∧ (isRunBranch cards = Some StandardRun
     ↔ isRun cards = true ∧ consecutiveValues cards)
  ∧ (isRunBranch cards = Some AceHighRun
     ↔ isRun cards = true ∧ ¬ consecutiveValues cards).
Proof.
  intros Hwp. destruct (isRunBranch_cases cards Hwp) as [Hstd Hace].
  pose proof (isRun_branch cards) as Hrun.
  assert (isRun cards = true
          ↔ 3 ≤ length cards ∧ sameSuit cards
            ∧ (consecutiveValues cards ∨ aceOnTop cards)) as Hiff.
  { rewrite Hrun. split.
    - intros [[|] Hb].
      + apply Hstd in Hb as (? & ? & ?). auto.
      + apply Hace in Hb as (? & ? & ? & ?). auto.
    - intros (Hlen & Hsuit & Hor).
      destruct (isRunBranch cards) as [[|]|] eqn:Hb; [by eexists..|].
      exfalso.
      assert (¬ consecutiveValues cards) as Hnc.
      { intros Hc. assert (None = Some StandardRun) as [=] by by apply Hstd. }
      destruct Hor as [Hc|Ha]; [done|].
      assert (None = Some AceHighRun) as [=] by by apply Hace. }
  split; [exact Hiff|]. split.
  - rewrite Hstd, Hiff. tauto.
  - rewrite Hace, Hiff. tauto.
Qed.

Lemma isRun_meaning_witness :
  Forall wellParsed queenAceKing
  ∧ (isRun queenAceKing = true
     ↔ 3 ≤ length queenAceKing ∧ sameSuit queenAceKing
       ∧ (consecutiveValues queenAceKing ∨ aceOnTop queenAceKing))
  ∧ (isRunBranch queenAceKing = Some StandardRun
     ↔ isRun queenAceKing = true ∧ consecutiveValues queenAceKing)
  ∧ (isRunBranch queenAceKing = Some AceHighRun
     ↔ isRun queenAceKing = true ∧ ¬ consecutiveValues queenAceKing).
Proof.
  assert (Forall wellParsed queenAceKing) as Hwp.
  { repeat first [apply Forall_nil_2 | apply Forall_cons_2];
      (split; [by eexists | reflexivity]). }
  split; [exact Hwp|]. apply (isRun_meaning queenAceKing Hwp).
Defined.

(** Parsing is total on the 52 tokens of a pack, and every card it yields
    carries the number of its rank. *)
Lemma parseCard_wellParsed :
  Forall (λ token, wellParsed (parseCard token)) canonicalTokens.
Proof.
  repeat first [apply Forall_nil_2 | apply Forall_cons_2];
    (split; [by eexists | reflexivity]).
Qed.

(** The whole suit is the one group that meets both descriptions of a
    run; the evaluation accepts it as a standard sequence and never
    looks at its Ace. *)
Lemma allHearts_standard :
  consecutiveValues allHearts ∧ aceOnTop allHearts
  ∧ isRunBranch allHearts = Some StandardRun.
Proof.
  split; [by exists 1%Z|]. split; [|reflexivity].
  split; [reflexivity|]. split; [by vm_compute|]. reflexivity.
Qed.

(** ** The combination generator *)

Section Combinations.

Context {T : Type}.
Implicit Types l rest cur c : list T.

Lemma backtrack_elem k rest cur c :
  length cur ≤ k →
  c ∈ backtrack k rest cur
  ↔ ∃ s, c = cur ++ s ∧ s `sublist_of` rest ∧ length cur + length s = k.
Proof.
  revert cur. induction rest as [|x rest IH]; intros cur Hcur; simpl.
  - destruct (Nat.eqb_spec (length cur) k) as [E|E].
    + rewrite list_elem_of_singleton. split.
      * intros ->. exists []. rewrite app_nil_r. split; [done|].
        split; [constructor | simpl; lia].
      * intros (s & -> & ->%sublist_nil_r & _). by rewrite app_nil_r.
    + split; [by intros ?%elem_of_nil|].
      intros (s & -> & ->%sublist_nil_r & Hk). simpl in Hk. lia.
  - destruct (Nat.eqb_spec (length cur) k) as [E|E].
    + rewrite list_elem_of_singleton. split.
      * intros ->. exists []. rewrite app_nil_r. split; [done|].
        split; [apply sublist_nil_l | simpl; lia].
      * intros (s & -> & _ & Hk). destruct s; [by rewrite app_nil_r|].
        simpl in Hk. lia.
    + rewrite elem_of_app, !IH by (rewrite ?length_app; simpl; lia). split.
      * intros [(s & -> & Hs & Hk)|(s & -> & Hs & Hk)].
        -- exists (x :: s). rewrite <- app_assoc. split; [done|].
           split; [by constructor|]. rewrite length_app in Hk. simpl in *. lia.
        -- exists s. split; [done|]. split; [by constructor | done].
      * intros (s & -> & Hs & Hk).
        apply sublist_cons_r in Hs as [Hs|(s' & -> & Hs)].
        -- right. by exists s.
        -- left. exists s'. rewrite <- app_assoc. split; [done|].
           split; [done|]. rewrite length_app. simpl in *. lia.
Qed.

(** [getCombinations l k] lists the [k]-element subsequences of [l]. *)
Lemma getCombinations_elem l k c :
  c ∈ getCombinations l k ↔ c `sublist_of` l ∧ length c = k.
Proof.
  unfold getCombinations. rewrite backtrack_elem by (simpl; lia). split.
  - intros (s & -> & Hs & Hk). done.
  - intros [Hs Hk]. by exists c.
Qed.

Lemma sublist_Deal a l : a `sublist_of` l ↔ ∃ r, Deal l a r.
Proof.
  split.
  - induction 1 as [|x a l _ [r IH]|x a l _ [r IH]].
    + exists []. constructor.
    + exists r. by constructor.
    + exists (x :: r). by constructor.
  - intros [r H]. induction H; by constructor.
Qed.

Lemma Deal_perm l a r : Deal l a r → l ≡ₚ a ++ r.
Proof.
  induction 1 as [|x l a r _ IH|x l a r _ IH]; simpl; [done|by rewrite IH|].
  by rewrite IH, Permutation_middle.
Qed.

Lemma Deal_length l a r : Deal l a r → length l = length a + length r.
Proof. intros H%Deal_perm. by rewrite H, length_app. Qed.

Lemma Deal_rest_sublist l a r : Deal l a r → r `sublist_of` l.
Proof. induction 1; by constructor. Qed.

Lemma Deal_filter (P : T → Prop) `{!∀ x, Decision (P x)} l a r :
  Deal l a r → Forall (λ x, ¬ P x) a → filter P l = filter P r.
Proof.
  induction 1 as [|x l a r _ IH|x l a r _ IH]; intros Ha; [done| |].
  - inversion_clear Ha. rewrite filter_cons_False by done. by apply IH.
  - rewrite !filter_cons. case_decide; [f_equal|]; by apply IH.
Qed.

(** Two subsequences with no member in common can be taken one after
    the other. *)
Lemma sublist_apart a b l :
  a `sublist_of` l → b `sublist_of` l → (∀ x, x ∈ a → x ∉ b) →
  ∃ r, Deal l a r ∧ b `sublist_of` r.
Proof.
  intros Ha. revert b. induction Ha as [|x a l _ IH|x a l _ IH]; intros b Hb Hab.
  - apply sublist_nil_r in Hb as ->. exists []. split; constructor.
  - apply sublist_cons_r in Hb as [Hb|(b' & -> & _)].
    + destruct (IH b Hb) as (r & Hd & Hr).
      { intros y Hy. apply Hab. by right. }
      exists r. split; [by constructor | done].
    + exfalso. apply (Hab x); left.
  - apply sublist_cons_r in Hb as [Hb|(b' & -> & Hb)].
    + destruct (IH b Hb Hab) as (r & Hd & Hr).
      exists (x :: r). split; by constructor.
    + destruct (IH b' Hb) as (r & Hd & Hr).
      { intros y Hy Hy'. apply (Hab y Hy). by right. }
      exists (x :: r). split; by constructor.
Qed.

Lemma two_members_sublist (a b : T) l :
  a ∈ l → b ∈ l → a ≠ b → [a; b] `sublist_of` l ∨ [b; a] `sublist_of` l.
Proof.
  induction l as [|x l IH]; intros Ha Hb Hne; [by apply elem_of_nil in Ha|].
  apply elem_of_cons in Ha as [->|Ha]; apply elem_of_cons in Hb as [->|Hb].
  - done.
  - left. constructor. by apply singleton_sublist_l.
  - right. constructor. by apply singleton_sublist_l.
  - destruct (IH Ha Hb Hne); [left | right]; by constructor.
Qed.

End Combinations.

(** ** The win evaluator *)

Section WinEvaluator.

Implicit Types hand meld rest one two : list ParsedCard.

Lemma allPossibleMelds_elem hand size meld :
  meld ∈ allPossibleMelds hand size
  ↔ meld `sublist_of` hand ∧ length meld = size ∧ isMeld meld = true.
Proof.
  unfold allPossibleMelds.
  destruct (Nat.ltb_spec (length hand) size) as [Hlt|Hge].
  - split; [by intros ?%elem_of_nil|].
    intros (Hsub%sublist_length & Hlen & _). lia.
  - rewrite list_elem_of_filter, getCombinations_elem, Is_true_true. tauto.
Qed.

Lemma originalsOf_elem meld token :
  token ∈ originalsOf meld ↔ token ∈ original <$> meld.
Proof. unfold originalsOf. apply elem_of_list_to_set. Qed.

Lemma remainingAfter_filter hand meld :
  remainingAfter hand meld = filter (λ c, original c ∉ original <$> meld) hand.
Proof.
  unfold remainingAfter. apply list_filter_iff. intros c.
  by rewrite originalsOf_elem.
Qed.

Lemma areDisjoint_true one two :
  areDisjoint one two = true ↔ tokenDisjoint one two.
Proof.
  unfold areDisjoint, tokenDisjoint. rewrite forallb_forall. split.
  - intros H x y Hx Hy Heq.
    apply list_elem_of_In, H, negb_true_iff, bool_decide_eq_false in Hy.
    apply Hy, originalsOf_elem, list_elem_of_fmap. by exists x.
  - intros H y Hy%list_elem_of_In. apply negb_true_iff, bool_decide_eq_false.
    intros (x & Hxy & Hx)%originalsOf_elem%list_elem_of_fmap.
    by apply (H x y).
Qed.

Lemma tokenDisjoint_tokens one two :
  tokenDisjoint one two
  ↔ ∀ token, token ∈ original <$> one → token ∉ original <$> two.
Proof.
  unfold tokenDisjoint. split.
  - intros H token (x & -> & Hx)%list_elem_of_fmap (y & Hxy & Hy)%list_elem_of_fmap.
    by apply (H x y).
  - intros H x y Hx Hy Heq. apply (H (original x)).
    + by apply list_elem_of_fmap_2.
    + rewrite Heq. by apply list_elem_of_fmap_2.
Qed.

Lemma tokenDisjoint_sym one two : tokenDisjoint one two → tokenDisjoint two one.
Proof. intros H x y Hx Hy Heq. by apply (H y x). Qed.

Lemma tokenDisjoint_ne one two :
  tokenDisjoint one two → length one = 3 → one ≠ two.
Proof.
  intros H Hlen ->. destruct two as [|c two]; [done|].
  apply (H c c); [left | left | done].
Qed.

(** The search through the pairs of three-card melds. *)
Lemma pairs_disjoint (melds : list (list ParsedCard)) :
  Forall (λ m, length m = 3) melds →
  existsb (λ pair,
    match pair with
    | m3_one :: m3_two :: _ => areDisjoint m3_one m3_two
    | _ => false
    end) (getCombinations melds 2) = true
  ↔ ∃ one two, one ∈ melds ∧ two ∈ melds ∧ tokenDisjoint one two.
Proof.
  intros Hthree. rewrite existsb_exists. split.
  - intros (pair & [Hsub Hlen]%list_elem_of_In%getCombinations_elem & Hdis).
    destruct pair as [|one [|two [|? ?]]]; try done.
    exists one, two. split; [|split; [|by apply areDisjoint_true]].
    + eapply elem_of_sublist; [|exact Hsub]. left.
    + eapply elem_of_sublist; [|exact Hsub]. right; left.
  - intros (one & two & Hone & Htwo & Hdis).
    assert (one ≠ two) as Hne.
    { apply tokenDisjoint_ne; [done|].
      rewrite Forall_forall in Hthree. by apply Hthree. }
    destruct (two_members_sublist one two melds Hone Htwo Hne) as [Hsub|Hsub].
    + exists [one; two]. split; [|by apply areDisjoint_true].
      by apply list_elem_of_In, getCombinations_elem.
    + exists [two; one]. split; [|by apply areDisjoint_true, tokenDisjoint_sym].
      by apply list_elem_of_In, getCombinations_elem.
Qed.

Lemma tryMeld4_true hand meld4 :
  tryMeld4 hand meld4 = true
  ↔ length (remainingAfter hand meld4) = 9
    ∧ ∃ one two,
        one ∈ allPossibleMelds (remainingAfter hand meld4) 3
        ∧ two ∈ allPossibleMelds (remainingAfter hand meld4) 3
        ∧ tokenDisjoint one two.
Proof.
  unfold tryMeld4. cbv zeta.
  set (remaining := remainingAfter hand meld4).
  set (melds := allPossibleMelds remaining 3).
  assert (Forall (λ m, length m = 3) melds) as Hthree.
  { apply Forall_forall. by intros m (_ & ? & _)%allPossibleMelds_elem. }
  change (MIN_CARDS_PER_PLAYER - 4) with 9.
  destruct (Nat.eqb_spec (length remaining) 9) as [Hnine|Hnine]; cbn [negb].
  2: { split; [done | by intros [? _]]. }
  destruct (Nat.ltb_spec (length melds) 2) as [Hfew|Hmany].
  - split; [done|]. intros (_ & one & two & Hone & Htwo & Hdis). exfalso.
    assert (one ≠ two) as Hne.
    { apply tokenDisjoint_ne; [done|].
      rewrite Forall_forall in Hthree. by apply Hthree. }
    destruct (two_members_sublist one two melds Hone Htwo Hne)
      as [Hsub%sublist_length|Hsub%sublist_length]; simpl in Hsub; lia.
  - rewrite pairs_disjoint by done. tauto.
Qed.

Lemma Deal_remaining hand meld4 rest :
  Deal hand meld4 rest →
  remainingAfter hand meld4 = filter (λ c, original c ∉ original <$> meld4) rest.
Proof.
  intros Hdeal. rewrite remainingAfter_filter.
  apply (Deal_filter _ _ _ _ Hdeal), Forall_forall.
  intros c Hc Hnot. apply Hnot, list_elem_of_fmap. by exists c.
Qed.

(** What is left after a four-card meld: the cards outside it, less those
    that carry one of its tokens. *)
Lemma remaining_nine hand meld4 rest :
  Deal hand meld4 rest →
  length (remainingAfter hand meld4) ≤ length rest
  ∧ (length (remainingAfter hand meld4) = length rest
     ↔ tokensGone meld4 rest).
Proof.
  intros Hdeal. rewrite (Deal_remaining _ _ _ Hdeal). split.
  - apply length_filter.
  - split; [apply filter_full_length|].
    intros H. unfold tokensGone in H. by rewrite filter_all.
Qed.

Lemma tokensGone_remaining hand meld4 rest :
  Deal hand meld4 rest → tokensGone meld4 rest →
  remainingAfter hand meld4 = rest.
Proof.
  intros Hdeal Hgone. rewrite (Deal_remaining _ _ _ Hdeal).
  by apply filter_all.
Qed.

Lemma checkWinningCondition_true (handStrings : list jsstring) :
  checkWinningCondition handStrings = true
  ↔ length handStrings = 13 ∧ splitsByToken (parseCard <$> handStrings).
Proof.
  unfold checkWinningCondition. cbv zeta.
  change MIN_CARDS_PER_PLAYER with 13.
  destruct (Nat.eqb_spec (length handStrings) 13) as [Hlen|Hlen]; cbn [negb].
  2: { split; [done | by intros [? _]]. }
  set (hand := parseCard <$> handStrings).
  assert (length hand = 13) as Hhand by (unfold hand; by rewrite length_fmap).
  rewrite existsb_exists. split.
  - intros (meld4 & Hin%list_elem_of_In%allPossibleMelds_elem & Htry).
    destruct Hin as ([rest Hdeal]%sublist_Deal & Hfour & Hmeld).
    apply tryMeld4_true in Htry as (Hnine & one & two & Hone & Htwo & Hdis).
    split; [done|]. exists meld4, rest.
    assert (length rest = 9) as Hrest.
    { apply Deal_length in Hdeal. lia. }
    assert (tokensGone meld4 rest) as Hgone.
    { apply (remaining_nine _ _ _ Hdeal). lia. }
    rewrite (tokensGone_remaining _ _ _ Hdeal Hgone) in Hone, Htwo.
    apply allPossibleMelds_elem in Hone as (? & ? & ?).
    apply allPossibleMelds_elem in Htwo as (? & ? & ?).
    split; [done|]. split; [done|]. split; [done|]. split; [done|].
    by exists one, two.
  - intros (_ & meld4 & rest & Hdeal & Hfour & Hmeld & Hgone
            & one & two & Hone & Htwo & Hl1 & Hl2 & Hm1 & Hm2 & Hdis).
    exists meld4. split.
    + apply list_elem_of_In, allPossibleMelds_elem.
      split; [|done]. apply sublist_Deal. by exists rest.
    + apply tryMeld4_true.
      rewrite (tokensGone_remaining _ _ _ Hdeal Hgone).
      split; [apply Deal_length in Hdeal; lia|].
      exists one, two. by rewrite !allPossibleMelds_elem.
Qed.

Lemma original_parseCard (handStrings : list jsstring) :
  original <$> (parseCard <$> handStrings) = handStrings.
Proof.
  rewrite <- list_fmap_compose. induction handStrings; [done|]. by f_equal/=.
Qed.

Lemma Deal_tokens_apart hand meld rest :
  NoDup (original <$> hand) → Deal hand meld rest →
  ∀ x y, x ∈ meld → y ∈ rest → original x ≠ original y.
Proof.
  intros Hnd Hdeal%Deal_perm x y Hx Hy Heq.
  rewrite Hdeal, fmap_app in Hnd. apply NoDup_app in Hnd as (_ & Hapart & _).
  apply (Hapart (original x)); [by apply list_elem_of_fmap_2|].
  rewrite Heq. by apply list_elem_of_fmap_2.
Qed.

Lemma Deal_tokens_NoDup hand meld rest :
  NoDup (original <$> hand) → Deal hand meld rest → NoDup (original <$> rest).
Proof.
  intros Hnd Hdeal%Deal_perm.
  rewrite Hdeal, fmap_app in Hnd. by apply NoDup_app in Hnd as (_ & _ & ?).
Qed.

Lemma splitsByToken_splitsByCard hand : splitsByToken hand → splitsByCard hand.
Proof.
  intros (meld4 & rest & Hdeal & Hfour & Hmeld & _
          & one & two & Hone & Htwo & Hl1 & Hl2 & Hm1 & Hm2 & Hdis).
  exists meld4, rest. split; [done|]. split; [done|]. split; [done|].
  destruct (sublist_apart one two rest Hone Htwo) as (rest' & Hd1 & Hsub).
  { intros x Hx Hx'. by apply (Hdis x x). }
  exists one, rest'. split; [done|]. split; [done|]. split; [done|].
  apply sublist_Deal in Hsub as [leftover Hd2]. by exists two, leftover.
Qed.

Lemma splitsByCard_splitsByToken hand :
  NoDup (original <$> hand) → splitsByCard hand → splitsByToken hand.
Proof.
  intros Hnd (meld4 & rest & Hdeal & Hfour & Hmeld
              & one & rest' & Hd1 & Hl1 & Hm1 & two & leftover & Hd2 & Hl2 & Hm2).
  exists meld4, rest. split; [done|]. split; [done|]. split; [done|]. split.
  - apply Forall_forall. intros y Hy (x & Hxy & Hx)%list_elem_of_fmap.
    by apply (Deal_tokens_apart _ _ _ Hnd Hdeal x y).
  - exists one, two. split; [apply sublist_Deal; by exists rest'|].
    split.
    { transitivity rest'; [apply sublist_Deal; by exists leftover|].
      by eapply Deal_rest_sublist. }
    do 4 (split; [done|]).
    intros x y Hx Hy.
    apply (Deal_tokens_apart rest one rest'); [|done..|].
    + by eapply Deal_tokens_NoDup.
    + eapply elem_of_sublist; [exact Hy|]. apply sublist_Deal. by exists leftover.
Qed.

End WinEvaluator.

(** C1, amended.  A hand whose length is not 13 never wins.  A hand of 13
    tokens wins exactly when it holds a four-card meld none of whose
    tokens is carried by another card of the hand and, among the nine
    other cards, two three-card melds with no token in common; nothing is
    asked of the three cards left over.  When the 13 tokens are pairwise
    distinct this is the same as choosing the three melds card by card. *)
Theorem checkWinningCondition_decomposition (handStrings : list jsstring) :
  (length handStrings ≠ 13 → checkWinningCondition handStrings = false)
  ∧ (checkWinningCondition handStrings = true
     ↔ length handStrings = 13 ∧ splitsByToken (parseCard <$> handStrings))
  ∧ (NoDup handStrings →
     (checkWinningCondition handStrings = true
      ↔ length handStrings = 13 ∧ splitsByCard (parseCard <$> handStrings))).
Proof.
  split; [|split].
  - intros Hlen. apply not_true_is_false.
    by intros [? _]%checkWinningCondition_true.
  - apply checkWinningCondition_true.
  - intros Hnd. rewrite checkWinningCondition_true. split.
    + intros [? ?%splitsByToken_splitsByCard]. done.
    + intros [? Hcard]. split; [done|].
      apply splitsByCard_splitsByToken; [|done]. by rewrite original_parseCard.
Qed.

(** C1 as stated fails on a hand with a repeated token: the hand below
    splits card by card into A-2-3-4 of spades, 6-7-8 of hearts and 9-10-J
    of diamonds, yet the evaluator rejects it, because the second Ace of
    spades leaves with the first. *)
Lemma checkWinningCondition_two_aces :
  length twoAcesHand = 13
  ∧ splitsByCard (parseCard <$> twoAcesHand)
  ∧ checkWinningCondition twoAcesHand = false.
Proof.
  split; [done|]. split; [|by vm_compute].
  exists (parseCard <$> take 4 twoAcesHand), (parseCard <$> drop 4 twoAcesHand).
  split; [do 4 apply deal_take; repeat apply deal_leave; apply deal_done|].
  split; [done|]. split; [by vm_compute|].
  exists (parseCard <$> take 3 (drop 5 twoAcesHand)),
         (parseCard <$> [units "A" ++ spade] ++ drop 8 twoAcesHand).
  split; [apply deal_leave; do 3 apply deal_take; repeat apply deal_leave;
          apply deal_done|].
  split; [done|]. split; [by vm_compute|].
  exists (parseCard <$> take 3 (drop 8 twoAcesHand)),
         (parseCard <$> [units "A" ++ spade] ++ drop 11 twoAcesHand).
  split; [apply deal_leave; do 3 apply deal_take; repeat apply deal_leave;
          apply deal_done|].
  split; [done|]. by vm_compute.
Qed.

(** C2, amended.  Taking a candidate four-card meld out of a 13-card hand
    removes every card that carries one of its tokens.  At most nine cards
    remain; exactly nine remain when no card outside the meld carries one
    of its tokens, which is always so when the 13 tokens are pairwise
    distinct; a candidate that leaves fewer than nine is passed over. *)
Theorem meld4_leaves_nine (handStrings : list jsstring) (meld4 : list ParsedCard) :
  length handStrings = 13 →
  meld4 ∈ allPossibleMelds (parseCard <$> handStrings) 4 →
  length (remainingAfter (parseCard <$> handStrings) meld4) ≤ 9
  ∧ (∀ rest, Deal (parseCard <$> handStrings) meld4 rest →
       (length (remainingAfter (parseCard <$> handStrings) meld4) = 9
        ↔ tokensGone meld4 rest))
  ∧ (NoDup handStrings →
     length (remainingAfter (parseCard <$> handStrings) meld4) = 9)
  ∧ (length (remainingAfter (parseCard <$> handStrings) meld4) ≠ 9 →
     tryMeld4 (parseCard <$> handStrings) meld4 = false).
Proof.
  intros Hlen (Hsub & Hfour & _)%allPossibleMelds_elem.
  set (hand := parseCard <$> handStrings) in *.
  assert (length hand = 13) as Hhand by (unfold hand; by rewrite length_fmap).
  assert (∀ rest, Deal hand meld4 rest → length rest = 9) as Hnine.
  { intros rest Hdeal%Deal_length. lia. }
  apply sublist_Deal in Hsub as [rest Hdeal].
  split; [|split; [|split]].
  - destruct (remaining_nine _ _ _ Hdeal) as [Hle _].
    rewrite (Hnine _ Hdeal) in Hle. done.
  - intros rest' Hdeal'. destruct (remaining_nine _ _ _ Hdeal') as [_ Hiff].
    by rewrite (Hnine _ Hdeal') in Hiff.
  - intros Hnd. destruct (remaining_nine _ _ _ Hdeal) as [_ Hiff].
    rewrite (Hnine _ Hdeal) in Hiff. apply Hiff, Forall_forall.
    intros y Hy (x & Hxy & Hx)%list_elem_of_fmap.
    apply (Deal_tokens_apart hand meld4 rest) with x y; try done.
    unfold hand. by rewrite original_parseCard.
  - intros Hne. apply not_true_is_false. by intros [? _]%tryMeld4_true.
Qed.

Lemma meld4_leaves_nine_witness :
  length winningHand = 13
  ∧ aceToFour ∈ allPossibleMelds (parseCard <$> winningHand) 4
  ∧ length (remainingAfter (parseCard <$> winningHand) aceToFour) ≤ 9
  ∧ (∀ rest, Deal (parseCard <$> winningHand) aceToFour rest →
       (length (remainingAfter (parseCard <$> winningHand) aceToFour) = 9
        ↔ tokensGone aceToFour rest))
  ∧ (NoDup winningHand →
     length (remainingAfter (parseCard <$> winningHand) aceToFour) = 9)
  ∧ (length (remainingAfter (parseCard <$> winningHand) aceToFour) ≠ 9 →
     tryMeld4 (parseCard <$> winningHand) aceToFour = false).
Proof.
  assert (aceToFour ∈ allPossibleMelds (parseCard <$> winningHand) 4) as Hin.
  { vm_compute. apply list_elem_of_here. }
  split; [reflexivity|]. split; [exact Hin|].
  exact (meld4_leaves_nine winningHand aceToFour eq_refl Hin).
Defined.

(** C2 as stated fails on the hand with two Aces of spades: the candidate
    A-2-3-4 of spades takes both Aces with it and leaves eight cards. *)
Lemma meld4_leaves_eight :
  length twoAcesHand = 13
  ∧ aceToFour ∈ allPossibleMelds (parseCard <$> twoAcesHand) 4
  ∧ length (remainingAfter (parseCard <$> twoAcesHand) aceToFour) = 8.
Proof.
  split; [done|]. split; [|by vm_compute].
  vm_compute. apply list_elem_of_here.
Qed.

(** C3.  The evaluator tells cards apart by their tokens alone, at every
    step it takes on a 13-card hand.  Its candidates are the melds of four
    cards chosen from the hand.  For each candidate, whichever four cards
    were chosen for it, what goes on to the next step is the rest of the
    hand without every card that carries a token of the meld: a card of
    the hand stays exactly when its token is not a token of the meld, so
    another copy of a chosen card leaves with it.  The candidate succeeds
    exactly when there was no such copy and the rest holds two three-card
    melds with no token in common; two melds pass the disjointness test
    exactly when no token of one is a token of the other, wherever their
    cards were taken from.  The hand wins exactly when one candidate
    succeeds, that is, when it splits by token. *)
Theorem tokens_identify_cards (handStrings : list jsstring) :
  length handStrings = 13 →
  (∀ meld4,
     meld4 ∈ allPossibleMelds (parseCard <$> handStrings) 4
     ↔ (∃ rest, Deal (parseCard <$> handStrings) meld4 rest)
       ∧ length meld4 = 4 ∧ isMeld meld4 = true)
  ∧ (∀ meld4 rest,
       meld4 ∈ allPossibleMelds (parseCard <$> handStrings) 4 →
       Deal (parseCard <$> handStrings) meld4 rest →
       remainingAfter (parseCard <$> handStrings) meld4
       = filter (λ c, original c ∉ original <$> meld4) rest
       ∧ (∀ c, c ∈ remainingAfter (parseCard <$> handStrings) meld4
               ↔ c ∈ parseCard <$> handStrings
                 ∧ original c ∉ original <$> meld4)
       ∧ (tryMeld4 (parseCard <$> handStrings) meld4 = true
          ↔ tokensGone meld4 rest
            ∧ ∃ one two,
                one ∈ allPossibleMelds rest 3
                ∧ two ∈ allPossibleMelds rest 3
                ∧ tokenDisjoint one two))
  ∧ (∀ one two, areDisjoint one two = true ↔ tokenDisjoint one two)
  ∧ (checkWinningCondition handStrings = true
     ↔ ∃ meld4,
         meld4 ∈ allPossibleMelds (parseCard <$> handStrings) 4
         ∧ tryMeld4 (parseCard <$> handStrings) meld4 = true)
  ∧ (checkWinningCondition handStrings = true
     ↔ splitsByToken (parseCard <$> handStrings)).
Proof.
  intros Hlen. set (hand := parseCard <$> handStrings).
  assert (length hand = 13) as Hhand by (unfold hand; by rewrite length_fmap).
  split; [|split; [|split; [|split]]].
  - intros meld4. rewrite allPossibleMelds_elem, sublist_Deal. tauto.
  - intros meld4 rest (_ & Hfour & _)%allPossibleMelds_elem Hdeal.
    assert (length rest = 9) as Hrest.
    { apply Deal_length in Hdeal. lia. }
    split; [by apply Deal_remaining|]. split.
    { intros c. rewrite remainingAfter_filter, list_elem_of_filter. tauto. }
    destruct (remaining_nine _ _ _ Hdeal) as [_ Hgone]. rewrite Hrest in Hgone.
    rewrite tryMeld4_true, Hgone. split.
    + intros [Hg Hpair]. split; [done|].
      by rewrite (tokensGone_remaining _ _ _ Hdeal Hg) in Hpair.
    + intros [Hg Hpair]. split; [done|].
      by rewrite (tokensGone_remaining _ _ _ Hdeal Hg).
  - apply areDisjoint_true.
  - unfold checkWinningCondition. cbv zeta. fold hand.
    change MIN_CARDS_PER_PLAYER with 13. rewrite Hlen. cbn [Nat.eqb negb].
    rewrite existsb_exists. split.
    + intros (meld4 & Hin%list_elem_of_In & Htry). by exists meld4.
    + intros (meld4 & Hin%list_elem_of_In & Htry). by exists meld4.
  - rewrite checkWinningCondition_true. tauto.
Qed.

Lemma tokens_identify_cards_witness :
  length twoAcesHand = 13
  ∧ (∀ meld4,
       meld4 ∈ allPossibleMelds (parseCard <$> twoAcesHand) 4
       ↔ (∃ rest, Deal (parseCard <$> twoAcesHand) meld4 rest)
         ∧ length meld4 = 4 ∧ isMeld meld4 = true)
  ∧ (∀ meld4 rest,
       meld4 ∈ allPossibleMelds (parseCard <$> twoAcesHand) 4 →
       Deal (parseCard <$> twoAcesHand) meld4 rest →
       remainingAfter (parseCard <$> twoAcesHand) meld4
       = filter (λ c, original c ∉ original <$> meld4) rest
       ∧ (∀ c, c ∈ remainingAfter (parseCard <$> twoAcesHand) meld4
               ↔ c ∈ parseCard <$> twoAcesHand
                 ∧ original c ∉ original <$> meld4)
       ∧ (tryMeld4 (parseCard <$> twoAcesHand) meld4 = true
          ↔ tokensGone meld4 rest
            ∧ ∃ one two,
                one ∈ allPossibleMelds rest 3
                ∧ two ∈ allPossibleMelds rest 3
                ∧ tokenDisjoint one two))
  ∧ (∀ one two, areDisjoint one two = true ↔ tokenDisjoint one two)
  ∧ (checkWinningCondition twoAcesHand = true
     ↔ ∃ meld4,
         meld4 ∈ allPossibleMelds (parseCard <$> twoAcesHand) 4
         ∧ tryMeld4 (parseCard <$> twoAcesHand) meld4 = true)
  ∧ (checkWinningCondition twoAcesHand = true
     ↔ splitsByToken (parseCard <$> twoAcesHand)).
Proof.
  split; [reflexivity|]. exact (tokens_identify_cards twoAcesHand eq_refl).
Defined.

(** ** The deck builder *)

Section Deck.

Implicit Types deck l : list jsstring.

Lemma floorTimes_lt r n : 0 < n → floorTimes r n < n.
Proof.
  intros Hn. unfold floorTimes. pose proof (in_unit r) as Hr.
  apply Nat.Div0.div_lt_upper_bound. nia.
Qed.

(** Inside the array, [swap] exchanges two cells. *)
Lemma swap_in_range {A} i j (l : list A) :
  i < length l → j ≤ i →
  ∃ atI atJ, l !! i = Some atI ∧ l !! j = Some atJ
    ∧ swap i j l = <[j := atI]> (<[i := atJ]> l).
Proof.
  intros Hi Hj.
  destruct (lookup_lt_is_Some_2 l i Hi) as [atI HatI].
  destruct (lookup_lt_is_Some_2 l j ltac:(lia)) as [atJ HatJ].
  exists atI, atJ. unfold swap. by rewrite HatI, HatJ.
Qed.

(** The index the shuffle draws for cell [i] is a cell at or below [i]. *)
Lemma shuffle_index_in_range (random : nat → Rand) calls i :
  floorTimes (random calls) (i + 1) ≤ i.
Proof. pose proof (floorTimes_lt (random calls) (i + 1)). lia. Qed.

Lemma length_swap {A} i j (l : list A) : length (swap i j l) = length l.
Proof.
  unfold swap. destruct (l !! j), (l !! i); by rewrite ?length_insert.
Qed.

Lemma insert_perm {A} i (x y : A) (l : list A) :
  l !! i = Some x → <[i := y]> l ≡ₚ y :: delete i l.
Proof.
  revert i. induction l as [|z l IH]; intros [|i] Hi; simplify_eq/=; [done|].
  rewrite (IH i) by done. apply Permutation_swap.
Qed.

Lemma swap_perm {A} i j (l : list A) : swap i j l ≡ₚ l.
Proof.
  unfold swap.
  destruct (l !! j) as [atJ|] eqn:HatJ; [|done].
  destruct (l !! i) as [atI|] eqn:HatI; [|done].
  destruct (decide (i = j)) as [->|Hne].
  { simplify_eq. rewrite list_insert_insert_eq. by rewrite list_insert_id. }
  set (l1 := <[i := atJ]> l).
  assert (l1 !! j = Some atJ) as Hj by (unfold l1; by rewrite list_lookup_insert_ne).
  assert (delete j l1 ≡ₚ delete i l) as Hrest.
  { apply (Permutation_cons_inv (a := atJ)).
    rewrite <- (delete_Permutation l1 j atJ Hj). by apply insert_perm with atI. }
  rewrite (insert_perm j atJ atI l1 Hj), Hrest.
  symmetry. by apply delete_Permutation.
Qed.

Lemma shuffleFrom_perm random calls i deck :
  shuffleFrom random calls i deck ≡ₚ deck.
Proof.
  revert calls deck. induction i as [|i IH]; intros calls deck; simpl; [done|].
  by rewrite IH, swap_perm.
Qed.

Lemma createDeck_perm random n : createDeck random n ≡ₚ unshuffledDeck n.
Proof. apply shuffleFrom_perm. Qed.

Lemma ceilHalf_bounds n : n ≤ 2 * ceilHalf n ≤ n + 1.
Proof.
  unfold ceilHalf. pose proof (Nat.div_mod_eq (n + 1) 2).
  pose proof (Nat.mod_upper_bound (n + 1) 2). lia.
Qed.

Lemma numDecksFor_ceil n : 1 ≤ n → numDecksFor n = ceilHalf n.
Proof.
  intros Hn. unfold numDecksFor. pose proof (ceilHalf_bounds n). lia.
Qed.

Lemma copies_packs token k :
  copies token (mjoin (replicate k onePack)) = k * copies token onePack.
Proof.
  unfold copies. induction k as [|k IH]; [done|].
  change (mjoin (replicate (S k) onePack))
    with (onePack ++ mjoin (replicate k onePack)).
  rewrite filter_app, length_app, IH. lia.
Qed.

Lemma length_packs k : length (mjoin (replicate k onePack)) = 52 * k.
Proof.
  induction k as [|k IH]; [done|].
  change (mjoin (replicate (S k) onePack))
    with (onePack ++ mjoin (replicate k onePack)).
  rewrite length_app, IH. change (length onePack) with 52. lia.
Qed.

Lemma onePack_once :
  Forall (λ token, copies token onePack = 1) canonicalTokens.
Proof. apply (bool_decide_unpack _). by vm_compute. Qed.

Lemma onePack_canonical : Forall (λ token, token ∈ canonicalTokens) onePack.
Proof. apply (bool_decide_unpack _). by vm_compute. Qed.

Lemma packs_canonical k token :
  token ∈ mjoin (replicate k onePack) → token ∈ canonicalTokens.
Proof.
  induction k as [|k IH]; [by intros ?%elem_of_nil|].
  change (mjoin (replicate (S k) onePack))
    with (onePack ++ mjoin (replicate k onePack)).
  intros [Hin|Hin]%elem_of_app; [|by apply IH].
  pose proof onePack_canonical as H. rewrite Forall_forall in H. by apply H.
Qed.

Lemma canonicalTokens_distinct : NoDup canonicalTokens ∧ length canonicalTokens = 52.
Proof. split; [|done]. apply (bool_decide_unpack _). by vm_compute. Qed.

End Deck.

(** C10.  For a table of at least one player the deck builder returns
    [52 * ceil(n/2)] tokens, [ceil(n/2)] copies of each of the 52 tokens of
    a pack and nothing else: the shuffle only rearranges the packs. *)
Theorem createDeck_contents (random : nat → Rand) (n : nat) :
  1 ≤ n →
  length (createDeck random n) = 52 * ceilHalf n
  ∧ (∀ token, token ∈ canonicalTokens →
       copies token (createDeck random n) = ceilHalf n)
  ∧ (∀ token, token ∈ createDeck random n → token ∈ canonicalTokens)
  ∧ createDeck random n ≡ₚ unshuffledDeck n
  ∧ NoDup canonicalTokens ∧ length canonicalTokens = 52
  ∧ n ≤ 2 * ceilHalf n ≤ n + 1.
Proof.
  intros Hn. pose proof (createDeck_perm random n) as Hperm.
  assert (unshuffledDeck n = mjoin (replicate (ceilHalf n) onePack)) as Hpacks.
  { unfold unshuffledDeck. by rewrite numDecksFor_ceil. }
  split; [|split; [|split; [|split; [done|]]]].
  - by rewrite Hperm, Hpacks, length_packs.
  - intros token Htoken. unfold copies. rewrite Hperm. fold (copies token (unshuffledDeck n)).
    rewrite Hpacks, copies_packs.
    pose proof onePack_once as Honce. rewrite Forall_forall in Honce.
    rewrite (Honce token Htoken). lia.
  - intros token. rewrite Hperm, Hpacks. apply packs_canonical.
  - split; [apply canonicalTokens_distinct|].
    split; [apply canonicalTokens_distinct | apply ceilHalf_bounds].
Qed.

Lemma createDeck_contents_witness :
  1 ≤ 4
  ∧ length (createDeck alwaysHalf 4) = 52 * ceilHalf 4
  ∧ (∀ token, token ∈ canonicalTokens →
       copies token (createDeck alwaysHalf 4) = ceilHalf 4)
  ∧ (∀ token, token ∈ createDeck alwaysHalf 4 → token ∈ canonicalTokens)
  ∧ createDeck alwaysHalf 4 ≡ₚ unshuffledDeck 4
  ∧ NoDup canonicalTokens ∧ length canonicalTokens = 52
  ∧ 4 ≤ 2 * ceilHalf 4 ≤ 4 + 1.
Proof.
  split; [lia|]. apply (createDeck_contents alwaysHalf 4). lia.
Defined.

(** ** The table at rest *)

Section Table.

Implicit Types t : Table.

Lemma atRest_fields t :
  atRest t
  ↔ playersRef t = players t ∧ currentPlayerRef t = currentPlayer t
    ∧ canDeclare t = declarable (players t !! currentPlayer t) (winner t).
Proof.
  unfold atRest, effects, effectOnCurrentPlayer, effectOnPlayers.
  destruct t as [ps log dk cur drag win can pref cref]; simpl. split.
  - intros [= Hcan Hps Hcur]. by rewrite <- Hcan at 1.
  - intros (-> & -> & ->). done.
Qed.

Lemma effects_atRest t : atRest (effects t).
Proof. by apply atRest_fields. Qed.

Lemma dispatch_atRest c t : atRest (dispatch c t).
Proof. apply effects_atRest. Qed.

(** [arr.map((x, index) => index === i ? f(x) : x)] rewrites cell [i]. *)
Lemma imap_at {A} (f : A → A) i (l : list A) x :
  l !! i = Some x →
  imap (λ index y, if index =? i then f y else y) l = <[i := f x]> l.
Proof.
  intros Hi. apply list_eq. intros j. rewrite list_lookup_imap.
  destruct (decide (i = j)) as [<-|Hne].
  - rewrite Hi, list_lookup_insert_eq by by eapply lookup_lt_Some.
    simpl. by rewrite Nat.eqb_refl.
  - rewrite list_lookup_insert_ne by done.
    destruct (l !! j); simpl; [|done].
    by destruct (Nat.eqb_spec j i); [subst|].
Qed.

Lemma filter_from_keep {A} j k (l : list A) :
  j < k → filter_from (λ index, negb (index =? j)) k l = l.
Proof.
  revert k. induction l as [|x l IH]; intros k Hjk; [done|]. simpl.
  destruct (Nat.eqb_spec k j); [lia|]. simpl. f_equal. apply IH. lia.
Qed.

(** [arr.filter((_, index) => index !== j)] drops cell [j]. *)
Lemma filter_from_delete {A} j k (l : list A) :
  k ≤ j → filter_from (λ index, negb (index =? j)) k l = delete (j - k) l.
Proof.
  revert k. induction l as [|x l IH]; intros k Hkj; [done|]. simpl.
  destruct (Nat.eqb_spec k j) as [->|Hne]; simpl.
  - rewrite Nat.sub_diag. simpl. apply filter_from_keep. lia.
  - replace (j - k) with (S (j - S k)) by lia. simpl. f_equal. apply IH. lia.
Qed.

Lemma applyUpdates_alerts t us :
  Forall (λ u, ∃ msg, u = alert msg) us → applyUpdates t us = t.
Proof.
  induction 1 as [|u us [msg ->] _ IH]; [done|]. exact IH.
Qed.

(** A handler that only returns or warns leaves a resting table as it is. *)
Lemma dispatch_alerts c t :
  atRest t → Forall (λ u, ∃ msg, u = alert msg) (handler c t) → dispatch c t = t.
Proof.
  intros Hrest Hus. unfold dispatch. by rewrite applyUpdates_alerts.
Qed.

Lemma handler_finished c t : is_Some (winner t) → handler c t = [].
Proof.
  intros Hwin. destruct c; simpl;
    unfold drawCard, discardCard, skipTurn, declareWin;
    by rewrite bool_decide_eq_true_2.
Qed.

(** Once a winner is set, no sequence of commands changes the table. *)
Lemma finished_forever cs t :
  atRest t → is_Some (winner t) → dispatchAll cs t = t.
Proof.
  intros Hrest Hwin. induction cs as [|c cs IH]; [done|].
  unfold dispatchAll in *. simpl.
  rewrite dispatch_alerts; [done..|]. by rewrite handler_finished.
Qed.

Lemma not_finished t : winner t = None → bool_decide (is_Some (winner t)) = false.
Proof. intros ->. apply bool_decide_eq_false_2. by intros [? ?]. Qed.

Lemma drawCard_accepts t newCard rest p :
  atRest t → winner t = None → deck t = newCard :: rest →
  activePlayer t = Some p → length (cards p) < MAX_CARDS_PER_PLAYER_LOGIC →
  drawCard t
  = [setDeck (drop 1);
     setPlayers (<[currentPlayer t := withCards p (cards p ++ [newCard])]> (players t))].
Proof.
  intros (Hps & Hcur & _)%atRest_fields Hwin Hdeck Hp Hlen.
  unfold drawCard, activePlayer in *. rewrite not_finished, Hps, Hcur, Hdeck, Hp by done.
  destruct (Nat.leb_spec MAX_CARDS_PER_PLAYER_LOGIC (length (cards p))); [lia|].
  by rewrite (imap_at (λ player, withCards player (cards player ++ [newCard])) _ _ p Hp).
Qed.

Lemma drawCard_rejects t :
  atRest t → winner t = None →
  ¬ (deck t ≠ [] ∧ ∃ p, activePlayer t = Some p
                     ∧ length (cards p) < MAX_CARDS_PER_PLAYER_LOGIC) →
  Forall (λ u, ∃ msg, u = alert msg) (drawCard t).
Proof.
  intros (Hps & Hcur & _)%atRest_fields Hwin Hnot.
  unfold drawCard, activePlayer in *. rewrite not_finished, Hps, Hcur by done.
  destruct (deck t) as [|newCard rest]; [repeat constructor; by eexists|].
  destruct (players t !! currentPlayer t) as [p|]; [|constructor].
  destruct (Nat.leb_spec MAX_CARDS_PER_PLAYER_LOGIC (length (cards p)));
    [repeat constructor; by eexists|].
  exfalso. apply Hnot. split; [done|]. by exists p.
Qed.

End Table.

(** C9.  While the game is on, a draw is accepted exactly when the deck is
    not empty and the active player holds fewer than 14 cards.  It then
    takes the head of the deck and puts it at the end of the active
    player's hand; the turn, the discard log, the winner and the other
    players are as before.  A draw that is not accepted changes nothing. *)
Theorem drawCard_rule (t : Table) :
  atRest t → winner t = None →
  (accepted (drawCard t) = true
   ↔ deck t ≠ [] ∧ ∃ p, activePlayer t = Some p
                    ∧ length (cards p) < MAX_CARDS_PER_PLAYER_LOGIC)
  ∧ (∀ newCard rest p,
       deck t = newCard :: rest → activePlayer t = Some p →
       length (cards p) < MAX_CARDS_PER_PLAYER_LOGIC →
       deck (dispatch Draw t) = rest
       ∧ players (dispatch Draw t)
         = <[currentPlayer t := withCards p (cards p ++ [newCard])]> (players t)
       ∧ hands (dispatch Draw t)
         = <[currentPlayer t := cards p ++ [newCard]]> (hands t)
       ∧ currentPlayer (dispatch Draw t) = currentPlayer t
       ∧ discardedCards (dispatch Draw t) = discardedCards t
       ∧ winner (dispatch Draw t) = winner t)
  ∧ (accepted (drawCard t) = false → dispatch Draw t = t).
Proof.
  intros Hrest Hwin.
  assert (∀ newCard rest p,
            deck t = newCard :: rest → activePlayer t = Some p →
            length (cards p) < MAX_CARDS_PER_PLAYER_LOGIC →
            accepted (drawCard t) = true) as Hyes.
  { intros newCard rest p Hdeck Hp Hlen.
    by rewrite (drawCard_accepts t newCard rest p). }
  assert (¬ (deck t ≠ [] ∧ ∃ p, activePlayer t = Some p
                              ∧ length (cards p) < MAX_CARDS_PER_PLAYER_LOGIC) →
          accepted (drawCard t) = false ∧ dispatch Draw t = t) as Hno.
  { intros Hnot. pose proof (drawCard_rejects t Hrest Hwin Hnot) as Hus. split.
    - unfold accepted. apply not_true_is_false.
      intros (u & Hu%list_elem_of_In & Hch)%existsb_exists.
      rewrite Forall_forall in Hus. by destruct (Hus u Hu) as [msg ->].
    - by apply dispatch_alerts. }
  assert ((deck t ≠ [] ∧ ∃ p, activePlayer t = Some p
                           ∧ length (cards p) < MAX_CARDS_PER_PLAYER_LOGIC)
          ∨ ¬ (deck t ≠ [] ∧ ∃ p, activePlayer t = Some p
                              ∧ length (cards p) < MAX_CARDS_PER_PLAYER_LOGIC))
    as [Hcan|Hcannot].
  { destruct (deck t) as [|newCard rest]; [right; by intros [? _]|].
    destruct (activePlayer t) as [p|]; [|right; by intros (_ & ? & ? & _)].
    destruct (decide (length (cards p) < MAX_CARDS_PER_PLAYER_LOGIC)).
    - left. split; [done|]. by exists p.
    - right. intros (_ & ? & [= <-] & ?). done. }
  - destruct Hcan as (Hdeck & p & Hp & Hlen).
    destruct (deck t) as [|newCard rest] eqn:Edeck; [done|].
    split; [|split].
    + split; [intros _; split; [done | by exists p]|].
      intros _. by apply (Hyes newCard rest p).
    + intros newCard' rest' p' [= <- <-] Hp' Hlen'.
      assert (p' = p) as -> by congruence.
      unfold dispatch, hands. simpl.
      rewrite (drawCard_accepts t newCard rest p) by done. simpl.
      rewrite Edeck. rewrite list_fmap_insert. done.
    + intros Hacc. by rewrite (Hyes newCard rest p) in Hacc.
  - destruct (Hno Hcannot) as [Hacc Hsame]. split; [|split].
    + rewrite Hacc. split; [done | by intros ?%Hcannot].
    + intros newCard rest p Hdeck Hp Hlen. exfalso. apply Hcannot.
      split; [by rewrite Hdeck | by exists p].
    + done.
Qed.

Section Turn.

Implicit Types t : Table.

Lemma skipTurn_cases t p :
  atRest t → winner t = None → activePlayer t = Some p →
  skipTurn t
  = if length (cards p) =? MIN_CARDS_PER_PLAYER then
      if checkWinningCondition (cards p) then [alert ShouldDeclare]
      else [setCurrentPlayer (λ prev, (prev + 1) mod length (players t))]
    else [alert (CannotSkip (length (cards p)))].
Proof.
  intros (Hps & Hcur & _)%atRest_fields Hwin Hp.
  unfold skipTurn, activePlayer in *. by rewrite not_finished, Hps, Hcur, Hp.
Qed.

Lemma declareWin_cases t p :
  winner t = None → activePlayer t = Some p →
  declareWin t
  = if (length (cards p) =? MIN_CARDS_PER_PLAYER) && checkWinningCondition (cards p)
    then [setWinner (Some p); alert (WinsTheGame (name p))]
    else [alert CannotDeclare; setCanDeclare false].
Proof.
  intros Hwin Hp. unfold declareWin, activePlayer in *.
  by rewrite not_finished, Hp.
Qed.

Lemma effects_setCanDeclare t b :
  effects (applyUpdate t (setCanDeclare b)) = effects t.
Proof. done. Qed.

Lemma discardCard_accepts t p i c :
  atRest t → activePlayer t = Some p → cards p !! i = Some c →
  winner t = None → draggedCardIndex t = None → c ≠ [] →
  MIN_CARDS_PER_PLAYER < length (cards p) →
  discardCard i t
  = discardWarning (length (delete i (cards p)))
    ++ [setPlayers (<[currentPlayer t := withCards p (delete i (cards p))]> (players t));
        setDiscardedCards (λ prev, prev ++ [mkDiscardedCard (id p) c])]
    ++ discardHandOver (delete i (cards p)) (length (players t)).
Proof.
  intros (Hps & Hcur & _)%atRest_fields Hp Hc Hwin Hdrag Hne Hlen.
  unfold discardCard, activePlayer in *.
  rewrite not_finished, Hdrag, Hps, Hcur, Hp, Hc by done. simpl.
  rewrite bool_decide_eq_false_2 by done.
  destruct (Nat.leb_spec (length (cards p)) MIN_CARDS_PER_PLAYER); [lia|].
  rewrite (imap_at (λ q, withCards q
             (filter_from (λ index, negb (index =? i)) 0 (cards q))) _ _ p Hp).
  rewrite list_lookup_insert_eq by by eapply lookup_lt_Some.
  rewrite length_insert. cbn [cards withCards].
  rewrite (filter_from_delete i 0) by lia. rewrite Nat.sub_0_r.
  unfold discardWarning, discardHandOver. f_equal. f_equal.
  destruct (length (delete i (cards p)) =? MIN_CARDS_PER_PLAYER); simpl.
  - by rewrite andb_true_r.
  - by destruct (_ <? _).
Qed.

Lemma discardCard_rejects t p i c :
  atRest t → activePlayer t = Some p → cards p !! i = Some c →
  ¬ (winner t = None ∧ draggedCardIndex t = None ∧ c ≠ []
     ∧ MIN_CARDS_PER_PLAYER < length (cards p)) →
  Forall (λ u, ∃ msg, u = alert msg) (discardCard i t).
Proof.
  intros (Hps & Hcur & _)%atRest_fields Hp Hc Hnot.
  unfold discardCard, activePlayer in *.
  case_bool_decide as Hwin; [constructor|].
  case_bool_decide as Hdrag; [constructor|].
  rewrite Hps, Hcur, Hp, Hc. simpl.
  case_bool_decide as Hne; [constructor|].
  destruct (Nat.leb_spec (length (cards p)) MIN_CARDS_PER_PLAYER);
    [repeat constructor; by eexists|].
  exfalso. apply Hnot. split; [|split; [|done]].
  - destruct (winner t); [|done]. exfalso. by apply Hwin.
  - destruct (draggedCardIndex t); [|done]. exfalso. by apply Hdrag.
Qed.

Lemma alerts_rejected us :
  Forall (λ u, ∃ msg, u = alert msg) us → accepted us = false ∧ passesTurn us = false.
Proof.
  induction 1 as [|u us [msg ->] _ [IH1 IH2]]; [done|].
  unfold accepted, passesTurn in *. simpl. by rewrite IH1, IH2.
Qed.

End Turn.

(** C8.  While the game is on, a skip hands the turn to the next player,
    modulo the number of players, exactly when the active player holds 13
    cards that do not win; nothing else changes.  With another hand size,
    or with a winning hand, the skip is rejected and the table stays as it
    is. *)
Theorem skipTurn_rule (t : Table) (p : Player) :
  atRest t → winner t = None → activePlayer t = Some p →
  (passesTurn (skipTurn t) = true
   ↔ length (cards p) = 13 ∧ checkWinningCondition (cards p) = false)
  ∧ (passesTurn (skipTurn t) = true →
     currentPlayer (dispatch Skip t) = nextTurn (currentPlayer t) (length (players t))
     ∧ players (dispatch Skip t) = players t
     ∧ deck (dispatch Skip t) = deck t
     ∧ discardedCards (dispatch Skip t) = discardedCards t
     ∧ winner (dispatch Skip t) = winner t)
  ∧ (length (cards p) ≠ 13 ∨ checkWinningCondition (cards p) = true →
     accepted (skipTurn t) = false ∧ dispatch Skip t = t).
Proof.
  intros Hrest Hwin Hp. pose proof (skipTurn_cases t p Hrest Hwin Hp) as Hskip.
  change MIN_CARDS_PER_PLAYER with 13 in Hskip.
  destruct (Nat.eqb_spec (length (cards p)) 13) as [Hlen|Hlen].
  - destruct (checkWinningCondition (cards p)) eqn:Hwins.
    + split; [|split].
      * rewrite Hskip. split; [done | by intros [_ ?]].
      * by rewrite Hskip.
      * intros _. split; [by rewrite Hskip|].
        apply dispatch_alerts; [done|]. simpl. rewrite Hskip.
        repeat constructor. by eexists.
    + split; [|split].
      * by rewrite Hskip.
      * intros _. unfold dispatch. simpl. by rewrite Hskip.
      * intros [?|?]; done.
  - split; [|split].
    + rewrite Hskip. split; [done | by intros [? _]].
    + by rewrite Hskip.
    + intros _. split; [by rewrite Hskip|].
      apply dispatch_alerts; [done|]. simpl. rewrite Hskip.
      repeat constructor. by eexists.
Qed.

Lemma skipTurn_rule_witness :
  atRest quietTable ∧ winner quietTable = None
  ∧ activePlayer quietTable = Some (seat 1 plainHand)
  ∧ (passesTurn (skipTurn quietTable) = true
     ↔ length (cards (seat 1 plainHand)) = 13
       ∧ checkWinningCondition (cards (seat 1 plainHand)) = false).
Proof.
  assert (atRest quietTable) as Hrest by (vm_compute; reflexivity).
  split; [exact Hrest|]. split; [reflexivity|]. split; [reflexivity|].
  exact (proj1 (skipTurn_rule quietTable (seat 1 plainHand) Hrest eq_refl eq_refl)).
Defined.

(** C7.  A discard at a valid index is accepted only when the active
    player holds more than 13 cards.  When accepted it removes the card at
    that index from the hand and appends the player's id and the card to
    the discard log; the deck and the winner stay.  The turn passes to the
    next player, modulo the number of players, exactly when the hand left
    has 13 cards and does not win; when the hand left still exceeds 13
    cards, or has 13 and wins, the turn stays.  A discard that is not
    accepted changes nothing. *)
Theorem discardCard_rule (t : Table) (p : Player) (i : nat) (c : jsstring) :
  atRest t → activePlayer t = Some p → cards p !! i = Some c →
  let handLeft := delete i (cards p) in
  let t' := dispatch (Discard i) t in
  (accepted (discardCard i t) = true
   ↔ winner t = None ∧ draggedCardIndex t = None ∧ c ≠ []
     ∧ 13 < length (cards p))
  ∧ (accepted (discardCard i t) = true →
     players t' = <[currentPlayer t := withCards p handLeft]> (players t)
     ∧ hands t' = <[currentPlayer t := handLeft]> (hands t)
     ∧ discardedCards t' = discardedCards t ++ [mkDiscardedCard (id p) c]
     ∧ deck t' = deck t ∧ winner t' = winner t
     ∧ (passesTurn (discardCard i t) = true
        ↔ length handLeft = 13 ∧ checkWinningCondition handLeft = false)
     ∧ (passesTurn (discardCard i t) = true →
        currentPlayer t' = nextTurn (currentPlayer t) (length (players t)))
     ∧ (13 < length handLeft
        ∨ (length handLeft = 13 ∧ checkWinningCondition handLeft = true) →
        passesTurn (discardCard i t) = false ∧ currentPlayer t' = currentPlayer t))
  ∧ (accepted (discardCard i t) = false → t' = t).
Proof.
  intros Hrest Hp Hc handLeft t'.
  assert ((winner t = None ∧ draggedCardIndex t = None ∧ c ≠ []
           ∧ 13 < length (cards p))
          ∨ ¬ (winner t = None ∧ draggedCardIndex t = None ∧ c ≠ []
               ∧ 13 < length (cards p))) as [Hok|Hnot].
  { destruct (winner t); [right; by intros [? _]|].
    destruct (draggedCardIndex t); [right; by intros (_ & ? & _)|].
    destruct (decide (c = [])); [right; by intros (_ & _ & ? & _)|].
    destruct (decide (13 < length (cards p))); [by left|].
    right. by intros (_ & _ & _ & ?). }
  - destruct Hok as (Hwin & Hdrag & Hne & Hlen).
    pose proof (discardCard_accepts t p i c Hrest Hp Hc Hwin Hdrag Hne Hlen) as Hus.
    fold handLeft in Hus.
    assert (accepted (discardCard i t) = true) as Hacc.
    { rewrite Hus. unfold accepted. rewrite !existsb_app. simpl.
      by rewrite orb_true_r. }
    assert (13 ≤ length handLeft) as Hleft.
    { unfold handLeft. rewrite length_delete by by eexists. lia. }
    unfold discardWarning, discardHandOver in Hus.
    change MIN_CARDS_PER_PLAYER with 13 in Hus.
    split; [by rewrite Hacc|]. split; [|by rewrite Hacc].
    intros _. subst t'. unfold dispatch, hands. simpl handler.
    destruct (Nat.eqb_spec (length handLeft) 13) as [Hthirteen|Hmore].
    + destruct (Nat.ltb_spec 13 (length handLeft)) as [?|_]; [lia|].
      destruct (checkWinningCondition handLeft) eqn:Hwins;
        rewrite Hus; simpl; rewrite list_fmap_insert; simpl.
      all: repeat split; try done.
      all: try (by intros [_ ?]).
      all: match goal with H : _ ∨ _ |- _ => destruct H as [?|[_ ?]]; [lia | done] end.
    + destruct (Nat.ltb_spec 13 (length handLeft)) as [Hgt|?]; [|lia].
      rewrite Hus; simpl; rewrite list_fmap_insert; simpl.
      repeat split; try done. by intros [? _].
  - pose proof (discardCard_rejects t p i c Hrest Hp Hc Hnot) as Hus.
    destruct (alerts_rejected _ Hus) as [Hacc _].
    split; [|split].
    + rewrite Hacc. split; [done | by intros ?%Hnot].
    + by rewrite Hacc.
    + intros _. by apply dispatch_alerts.
Qed.

Lemma discardCard_rule_witness :
  atRest fullTable
  ∧ activePlayer fullTable = Some (seat 1 (plainHand ++ [units "9" ++ diamond]))
  ∧ cards (seat 1 (plainHand ++ [units "9" ++ diamond])) !! 13
    = Some (units "9" ++ diamond)
  ∧ (accepted (discardCard 13 fullTable) = true
     ↔ winner fullTable = None ∧ draggedCardIndex fullTable = None
       ∧ units "9" ++ diamond ≠ []
       ∧ 13 < length (cards (seat 1 (plainHand ++ [units "9" ++ diamond])))).
Proof.
  assert (atRest fullTable) as Hrest by (vm_compute; reflexivity).
  split; [exact Hrest|]. split; [reflexivity|]. split; [reflexivity|].
  exact (proj1 (discardCard_rule fullTable _ 13 _ Hrest eq_refl eq_refl)).
Defined.

(** C6.  While the game is on, declaring is accepted exactly when the
    active player holds 13 cards that win; it then sets the winner to the
    active player.  From then on every draw, discard, skip or further
    declaration is rejected, whatever came before it, and the table, with
    its hands, deck, discard log, turn and winner, stays as the declaration
    left it.  A declaration that is not accepted changes nothing. *)
Theorem declareWin_rule (t : Table) (p : Player) :
  atRest t → winner t = None → activePlayer t = Some p →
  (accepted (declareWin t) = true
   ↔ length (cards p) = 13 ∧ checkWinningCondition (cards p) = true)
  ∧ (accepted (declareWin t) = true →
     winner (dispatch DeclareWin t) = Some p
     ∧ players (dispatch DeclareWin t) = players t
     ∧ ∀ commands command,
         handler command (dispatchAll commands (dispatch DeclareWin t)) = []
         ∧ dispatchAll (commands ++ [command]) (dispatch DeclareWin t)
           = dispatch DeclareWin t)
  ∧ (accepted (declareWin t) = false → dispatch DeclareWin t = t).
Proof.
  intros Hrest Hwin Hp. pose proof (declareWin_cases t p Hwin Hp) as Hus.
  change MIN_CARDS_PER_PLAYER with 13 in Hus.
  destruct (Nat.eqb_spec (length (cards p)) 13) as [Hlen|Hlen];
    [destruct (checkWinningCondition (cards p)) eqn:Hwins|]; simpl in Hus.
  - assert (winner (dispatch DeclareWin t) = Some p) as Hwinner.
    { unfold dispatch. simpl. by rewrite Hus. }
    split; [by rewrite Hus|]. split; [|by rewrite Hus].
    intros _. split; [done|]. split; [unfold dispatch; simpl; by rewrite Hus|].
    intros commands command.
    assert (∀ cs, dispatchAll cs (dispatch DeclareWin t) = dispatch DeclareWin t)
      as Hstay.
    { intros cs. apply finished_forever; [apply dispatch_atRest|].
      by rewrite Hwinner. }
    rewrite !Hstay. split; [|done].
    apply handler_finished. by rewrite Hwinner.
  - split; [|split].
    + rewrite Hus. split; [done | by intros [_ ?]].
    + by rewrite Hus.
    + intros _. unfold dispatch. simpl. rewrite Hus. exact Hrest.
  - split; [|split].
    + rewrite Hus. split; [done | by intros [? _]].
    + by rewrite Hus.
    + intros _. unfold dispatch. simpl. rewrite Hus. exact Hrest.
Qed.

Lemma declareWin_rule_witness :
  atRest wonTable ∧ winner wonTable = None
  ∧ activePlayer wonTable = Some (seat 1 winningHand)
  ∧ (accepted (declareWin wonTable) = true
     ↔ length (cards (seat 1 winningHand)) = 13
       ∧ checkWinningCondition (cards (seat 1 winningHand)) = true).
Proof.
  assert (atRest wonTable) as Hrest by (vm_compute; reflexivity).
  split; [exact Hrest|]. split; [reflexivity|]. split; [reflexivity|].
  exact (proj1 (declareWin_rule wonTable (seat 1 winningHand) Hrest eq_refl eq_refl)).
Defined.

Lemma drawCard_rule_witness :
  atRest quietTable ∧ winner quietTable = None
  ∧ (accepted (drawCard quietTable) = true
     ↔ deck quietTable ≠ []
       ∧ ∃ p, activePlayer quietTable = Some p
              ∧ length (cards p) < MAX_CARDS_PER_PLAYER_LOGIC).
Proof.
  assert (atRest quietTable) as Hrest by (vm_compute; reflexivity).
  split; [exact Hrest|]. split; [reflexivity|].
  exact (proj1 (drawCard_rule quietTable Hrest eq_refl)).
Defined.

(** * Further properties *)

(** ** Parsing *)

(** X1.  Gluing the parsed rank and suit together gives the token back
    exactly when the token does not have three units, or has three and
    starts with "10": a three-unit token is always read as a ten. *)
Theorem parseCard_round_trip (token : jsstring) :
  rank (parseCard token) ++ suit (parseCard token) = token
  ↔ (length token = 3 → take 2 token = units "10").
Proof.
  unfold parseCard, slice_last, slice_init. cbn [rank suit Nat.eqb].
  destruct (Nat.eqb_spec (length token) 3) as [Hlen|Hlen].
  - rewrite Hlen. change (3 - 1) with 2. split.
    + intros Heq _. apply (f_equal (take 2)) in Heq.
      by rewrite take_app_length' in Heq.
    + intros Hten. rewrite <- (Hten eq_refl). apply take_drop.
  - split; [done|]. intros _. apply take_drop.
Qed.

(** X2.  A rank of the rank order followed by any one-unit suit parses
    into that rank, that suit and the value one more than the rank's
    place in the order; the colour is red for a heart or a diamond and
    black for every other unit. *)
Theorem parseCard_rank_suit (i : nat) (r : jsstring) (u : N) :
  RANK_ORDER !! i = Some r →
  parseCard (r ++ [u])
  = mkParsedCard (r ++ [u]) r [u] (Some (Z.of_nat i + 1)%Z)
      (if bool_decide (u = 9829%N ∨ u = 9830%N) then red else black).
Proof.
  intros Hr.
  assert (getCardColor [u]
          = if bool_decide (u = 9829%N ∨ u = 9830%N) then red else black) as Hcol.
  { unfold getCardColor, heart, diamond.
    destruct (decide (u = 9829%N)) as [->|Hh]; [done|].
    destruct (decide (u = 9830%N)) as [->|Hd]; [done|].
    rewrite (bool_decide_eq_false_2 ([u] = [9829%N])) by congruence.
    rewrite (bool_decide_eq_false_2 ([u] = [9830%N])) by congruence.
    by rewrite bool_decide_eq_false_2 by (by intros [?|?]). }
  rewrite <- Hcol.
  do 13 (destruct i as [|i]; [injection Hr as <-; reflexivity|]).
  done.
Qed.

Lemma parseCard_rank_suit_witness :
  RANK_ORDER !! 9 = Some (units "10")
  ∧ parseCard (units "10" ++ [9829%N])
    = mkParsedCard (units "10" ++ [9829%N]) (units "10") [9829%N]
        (Some (Z.of_nat 9 + 1)%Z)
        (if bool_decide (9829%N = 9829%N ∨ 9829%N = 9830%N) then red else black).
Proof.
  split; [reflexivity|]. exact (parseCard_rank_suit 9 (units "10") 9829%N eq_refl).
Defined.

(** ** The order of the cards *)

Section Order.

Implicit Types cards hand meld rest : list ParsedCard.

Lemma redCount_perm cards cards' : cards ≡ₚ cards' → redCount cards = redCount cards'.
Proof. intros H. unfold redCount. by rewrite H. Qed.

Lemma blackCount_perm cards cards' :
  cards ≡ₚ cards' → blackCount cards = blackCount cards'.
Proof. intros H. unfold blackCount. by rewrite H. Qed.

Lemma isSet_true_perm cards cards' :
  cards ≡ₚ cards' → isSet cards = true → isSet cards' = true.
Proof.
  intros Hperm. rewrite !isSet_true. unfold sameRank, colorSplit.
  rewrite <- (redCount_perm _ _ Hperm), <- (blackCount_perm _ _ Hperm).
  rewrite <- (Permutation_length Hperm).
  intros (Hlen & Hrank & Hsplit). split; [done|]. split; [|done].
  intros c1 c2. rewrite <- !Hperm. apply Hrank.
Qed.

Lemma isRun_accepts cards :
  Forall wellParsed cards →
  isRun cards = true
  ↔ 3 ≤ length cards ∧ sameSuit cards ∧ (consecutiveValues cards ∨ aceOnTop cards).
Proof.
  intros Hwp. destruct (isRunBranch_cases cards Hwp) as [Hstd Hace].
  rewrite isRun_branch. split.
  - intros [[|] Hb].
    + apply Hstd in Hb as (? & ? & ?). auto.
    + apply Hace in Hb as (? & ? & ? & ?). auto.
  - intros (Hlen & Hsuit & Hor).
    destruct (isRunBranch cards) as [b|] eqn:Hb; [by eexists|]. exfalso.
    assert (¬ consecutiveValues cards) as Hnc.
    { intros Hc. assert (None = Some StandardRun) as [=] by by apply Hstd. }
    destruct Hor as [Hc|Ha]; [done|].
    assert (None = Some AceHighRun) as [=] by by apply Hace.
Qed.

Lemma isRun_true_perm cards cards' :
  Forall wellParsed cards → cards ≡ₚ cards' →
  isRun cards = true → isRun cards' = true.
Proof.
  intros Hwp Hperm.
  rewrite (isRun_accepts cards Hwp), (isRun_accepts cards') by by rewrite <- Hperm.
  unfold sameSuit, consecutiveValues, aceOnTop.
  rewrite <- (Permutation_length Hperm).
  intros (Hlen & Hsuit & Hor). split; [done|]. split.
  - intros c1 c2. rewrite <- !Hperm. apply Hsuit.
  - destruct Hor as [[m Hm]|(Hone & Hk & Hrest)].
    + left. exists m. by rewrite <- Hperm.
    + right. by rewrite <- Hperm.
Qed.

Lemma isMeld_perm meld meld' :
  Forall wellParsed meld → meld ≡ₚ meld' → isMeld meld = isMeld meld'.
Proof.
  intros Hwp Hperm.
  assert (Forall wellParsed meld') as Hwp' by by rewrite <- Hperm.
  unfold isMeld. apply eq_iff_eq_true. rewrite !orb_true_iff. split.
  - intros [?|?]; [left; by apply (isSet_true_perm meld meld')
                  | right; by apply (isRun_true_perm meld meld')].
  - intros [?|?]; [left; by apply (isSet_true_perm meld' meld)
                  | right; by apply (isRun_true_perm meld' meld)].
Qed.

(** Taking cards out of a rearranged hand: the same cards can be taken,
    in the order the rearranged hand has them. *)
Lemma Deal_Permutation {A} (l l' a r : list A) :
  Deal l a r → l ≡ₚ l' → ∃ a' r', Deal l' a' r' ∧ a ≡ₚ a' ∧ r ≡ₚ r'.
Proof.
  intros Hdeal Hperm. revert a r Hdeal.
  induction Hperm as [|x l l' _ IH|x y l|l l' l'' _ IH1 _ IH2]; intros a r Hdeal.
  - inversion Hdeal; subst. exists [], []. split; [constructor|done].
  - inversion Hdeal as [|? ? a0 ? Hd|? ? ? r0 Hd]; subst.
    + destruct (IH _ _ Hd) as (a' & r' & Hd' & Ha & Hr).
      exists (x :: a'), r'. split; [by constructor|]. by rewrite Ha.
    + destruct (IH _ _ Hd) as (a' & r' & Hd' & Ha & Hr).
      exists a', (x :: r'). split; [by constructor|]. by rewrite Hr.
  - inversion Hdeal as [|? ? a0 ? Hd|? ? ? r0 Hd]; subst;
      inversion Hd as [|? ? a1 ? Hd1|? ? ? r1 Hd1]; subst.
    + exists (x :: y :: a1), r. split; [by repeat constructor|].
      split; [apply Permutation_swap | done].
    + exists (y :: a0), (x :: r1). split; [by repeat constructor | done].
    + exists (x :: a1), (y :: r0). split; [by repeat constructor | done].
    + exists a, (x :: y :: r1). split; [by repeat constructor|].
      split; [done | apply Permutation_swap].
  - destruct (IH1 _ _ Hdeal) as (a' & r' & Hd' & Ha & Hr).
    destruct (IH2 _ _ Hd') as (a'' & r'' & Hd'' & Ha' & Hr').
    exists a'', r''. split; [done|]. split; by etrans.
Qed.

Lemma tokenDisjoint_perm one two one' two' :
  one ≡ₚ one' → two ≡ₚ two' → tokenDisjoint one two → tokenDisjoint one' two'.
Proof.
  intros H1 H2 Hdis x y Hx Hy. apply Hdis; [by rewrite H1 | by rewrite H2].
Qed.

Lemma splitsByToken_perm hand hand' :
  Forall wellParsed hand → hand ≡ₚ hand' →
  splitsByToken hand → splitsByToken hand'.
Proof.
  intros Hwp Hperm
    (meld4 & rest & Hdeal & Hfour & Hmeld & Hgone
     & one & two & Hone & Htwo & Hl1 & Hl2 & Hm1 & Hm2 & Hdis).
  destruct (Deal_Permutation _ _ _ _ Hdeal Hperm) as (meld4' & rest' & Hdeal' & H4 & Hr).
  destruct (sublist_Permutation _ _ _ Hone Hr) as (one' & H1 & Hone').
  destruct (sublist_Permutation _ _ _ Htwo Hr) as (two' & H2 & Htwo').
  assert (∀ m, m `sublist_of` hand → Forall wellParsed m) as Hsub.
  { intros m Hm. apply Forall_forall. intros c Hc.
    rewrite Forall_forall in Hwp. apply Hwp. by eapply elem_of_sublist. }
  assert (rest `sublist_of` hand) as Hrest by by eapply Deal_rest_sublist.
  exists meld4', rest'. split; [done|].
  split; [by rewrite <- H4|]. split.
  { rewrite <- (isMeld_perm meld4 meld4'); [done| |done].
    apply Hsub, sublist_Deal. by exists rest. }
  split.
  { unfold tokensGone in *. rewrite <- Hr. eapply Forall_impl; [exact Hgone|].
    intros c Hc. by rewrite <- H4. }
  exists one', two'. split; [done|]. split; [done|].
  split; [by rewrite <- H1|]. split; [by rewrite <- H2|].
  split; [rewrite <- (isMeld_perm one one'); [done| |done];
          apply Hsub; by etrans|].
  split; [rewrite <- (isMeld_perm two two'); [done| |done];
          apply Hsub; by etrans|].
  by eapply tokenDisjoint_perm.
Qed.

End Order.

(** X3.  Whether a group is a set does not depend on the order of its
    cards. *)
Theorem isSet_order_free (cards cards' : list ParsedCard) :
  cards ≡ₚ cards' → isSet cards = isSet cards'.
Proof.
  intros Hperm. apply eq_iff_eq_true. split; apply isSet_true_perm; [done|].
  by symmetry.
Qed.

(** X4.  Whether a group of parsed cards is a run does not depend on the
    order of its cards. *)
Theorem isRun_order_free (cards cards' : list ParsedCard) :
  Forall wellParsed cards → cards ≡ₚ cards' → isRun cards = isRun cards'.
Proof.
  intros Hwp Hperm. apply eq_iff_eq_true. split.
  - by apply isRun_true_perm.
  - apply isRun_true_perm; [by rewrite <- Hperm | by symmetry].
Qed.

(** X5.  Rearranging a hand of parsed tokens never changes whether it
    wins. *)
Theorem checkWinningCondition_order_free (handStrings handStrings' : list jsstring) :
  Forall (λ token, wellParsed (parseCard token)) handStrings →
  handStrings ≡ₚ handStrings' →
  checkWinningCondition handStrings = checkWinningCondition handStrings'.
Proof.
  intros Hwp Hperm.
  assert (Forall wellParsed (parseCard <$> handStrings)) as Hwp1
    by by apply Forall_fmap.
  assert (Forall wellParsed (parseCard <$> handStrings')) as Hwp2
    by (rewrite <- Hperm; by apply Forall_fmap).
  apply eq_iff_eq_true. rewrite !checkWinningCondition_true.
  rewrite <- (Permutation_length Hperm). split; intros [Hlen Hsplit]; (split; [done|]).
  - eapply splitsByToken_perm; [exact Hwp1 | by rewrite Hperm | done].
  - eapply splitsByToken_perm; [exact Hwp2 | by rewrite Hperm | done].
Qed.

Lemma isSet_order_free_witness :
  threeKings ≡ₚ reverse threeKings ∧ isSet threeKings = isSet (reverse threeKings).
Proof.
  assert (threeKings ≡ₚ reverse threeKings) as Hperm
    by (symmetry; apply reverse_Permutation).
  split; [exact Hperm|]. exact (isSet_order_free _ _ Hperm).
Defined.

Lemma isRun_order_free_witness :
  Forall wellParsed queenAceKing ∧ queenAceKing ≡ₚ reverse queenAceKing
  ∧ isRun queenAceKing = isRun (reverse queenAceKing).
Proof.
  assert (Forall wellParsed queenAceKing) as Hwp.
  { repeat first [apply Forall_nil_2 | apply Forall_cons_2];
      (split; [by eexists | reflexivity]). }
  assert (queenAceKing ≡ₚ reverse queenAceKing) as Hperm
    by (symmetry; apply reverse_Permutation).
  split; [exact Hwp|]. split; [exact Hperm|].
  exact (isRun_order_free _ _ Hwp Hperm).
Defined.

Lemma checkWinningCondition_order_free_witness :
  Forall (λ token, wellParsed (parseCard token)) winningHand
  ∧ winningHand ≡ₚ reverse winningHand
  ∧ checkWinningCondition winningHand = checkWinningCondition (reverse winningHand).
Proof.
  assert (Forall (λ token, wellParsed (parseCard token)) winningHand) as Hwp.
  { repeat first [apply Forall_nil_2 | apply Forall_cons_2];
      (split; [by eexists | reflexivity]). }
  assert (winningHand ≡ₚ reverse winningHand) as Hperm
    by (symmetry; apply reverse_Permutation).
  split; [exact Hwp|]. split; [exact Hperm|].
  exact (checkWinningCondition_order_free _ _ Hwp Hperm).
Defined.

(** ** Counting combinations *)

Section Counting.

Context {T : Type}.
Implicit Types l rest cur c : list T.

Lemma backtrack_length k rest cur :
  length cur ≤ k →
  length (backtrack k rest cur) = choose (length rest) (k - length cur).
Proof.
  revert cur. induction rest as [|x rest IH]; intros cur Hcur; simpl.
  - destruct (Nat.eqb_spec (length cur) k) as [->|Hne].
    + by rewrite Nat.sub_diag.
    + by destruct (k - length cur) eqn:E; [lia|].
  - destruct (Nat.eqb_spec (length cur) k) as [->|Hne].
    + by rewrite Nat.sub_diag.
    + rewrite length_app, !IH by (rewrite ?length_app; simpl; lia).
      rewrite length_app. simpl.
      destruct (k - length cur) as [|j] eqn:E; [lia|].
      by replace (k - (length cur + 1)) with j by lia.
Qed.

Lemma backtrack_NoDup k rest cur :
  length cur ≤ k → NoDup rest → NoDup (backtrack k rest cur).
Proof.
  revert cur. induction rest as [|x rest IH]; intros cur Hcur Hnd; simpl.
  - destruct (length cur =? k); [apply NoDup_singleton | constructor].
  - destruct (Nat.eqb_spec (length cur) k) as [Heq|Hne]; [apply NoDup_singleton|].
    apply NoDup_cons in Hnd as [Hx Hnd].
    apply NoDup_app. split; [|split].
    + apply IH; [rewrite length_app; simpl; lia | done].
    + intros c (s & -> & Hs & _)%backtrack_elem (s' & Heq & Hs' & _)%backtrack_elem;
        [|lia|rewrite length_app; simpl; lia].
      rewrite <- app_assoc in Heq. apply app_inv_head in Heq. simpl in Heq.
      apply Hx. eapply elem_of_sublist; [|exact Hs']. rewrite <- Heq. left.
    + apply IH; [lia | done].
Qed.

End Counting.

(** X6.  [getCombinations l k] lists exactly the [k]-element
    subsequences of [l], each keeping the order of [l]: one entry for
    each of the [choose (length l) k] ways to pick positions, and no entry
    twice when [l] has no repeated element.  For [k = 0] the only entry
    is the empty one, and for [k] above the length there is none. *)
Theorem getCombinations_complete {T} (l : list T) (k : nat) :
  (∀ c, c ∈ getCombinations l k ↔ c `sublist_of` l ∧ length c = k)
  ∧ length (getCombinations l k) = choose (length l) k
  ∧ (NoDup l → NoDup (getCombinations l k))
  ∧ getCombinations l 0 = [[]]
  ∧ (length l < k → getCombinations l k = []).
Proof.
  split; [intros c; apply getCombinations_elem|].
  assert (length (getCombinations l k) = choose (length l) k) as Hcount.
  { unfold getCombinations. rewrite backtrack_length by (simpl; lia).
    simpl. by rewrite Nat.sub_0_r. }
  split; [done|]. split; [|split].
  - intros Hnd. apply backtrack_NoDup; [simpl; lia | done].
  - by destruct l.
  - intros Hlt. apply length_zero_iff_nil. rewrite Hcount.
    clear Hcount. revert k Hlt. induction l as [|x l IH]; intros [|k] Hlt;
      simpl in *; try lia.
    rewrite !IH by lia. done.
Qed.

(** ** Dealing *)

Section Dealing.

Implicit Types newPlayers : list Player.
Implicit Types newDeck : list jsstring.

Lemma dealHands_concat k newPlayers newDeck :
  mjoin (cards <$> (dealHands k newPlayers newDeck).1)
  ++ (dealHands k newPlayers newDeck).2 = newDeck.
Proof.
  revert newDeck. induction newPlayers as [|p ps IH]; intros newDeck; [done|].
  cbn [dealHands fst snd]. rewrite fmap_cons.
  change (mjoin (?h :: ?hs)) with (h ++ mjoin hs).
  rewrite <- app_assoc, IH. apply take_drop.
Qed.

Lemma dealHands_seats k newPlayers newDeck :
  seatOnly <$> (dealHands k newPlayers newDeck).1 = seatOnly <$> newPlayers.
Proof.
  revert newDeck. induction newPlayers as [|p ps IH]; intros newDeck; [done|].
  cbn [dealHands fst]. rewrite !fmap_cons, IH. done.
Qed.

Lemma dealHands_hand k newPlayers newDeck i p :
  (dealHands k newPlayers newDeck).1 !! i = Some p →
  cards p = take k (drop (k * i) newDeck).
Proof.
  revert newDeck i p.
  induction newPlayers as [|q ps IH]; intros newDeck i p; [done|].
  cbn [dealHands fst]. destruct i as [|i]; simpl.
  - intros [= <-]. simpl. rewrite Nat.mul_0_r. simpl.
    destruct (Nat.min_spec k (length newDeck)) as [[_ ->]|[Hle ->]]; [done|].
    rewrite drop_0. by rewrite !take_ge by lia.
  - intros Hp%IH. rewrite Hp, drop_drop.
    destruct (Nat.min_spec k (length newDeck)) as [[_ ->]|[Hle ->]].
    + do 2 f_equal. lia.
    + by rewrite !drop_ge, !take_nil by lia.
Qed.

Lemma dealHands_rest k newPlayers newDeck :
  (dealHands k newPlayers newDeck).2 = drop (k * length newPlayers) newDeck.
Proof.
  revert newDeck. induction newPlayers as [|q ps IH]; intros newDeck.
  { simpl. by rewrite Nat.mul_0_r. }
  cbn [dealHands snd length]. rewrite IH, drop_drop.
  destruct (Nat.min_spec k (length newDeck)) as [[_ ->]|[Hle ->]].
  - f_equal. lia.
  - by rewrite !drop_ge by lia.
Qed.

End Dealing.

(** X7.  Dealing hands the cards out from the head of the deck, seat by
    seat: seat [i] gets the [k] cards from place [k * i] on, fewer or none
    when the deck runs out, and the deck keeps what lies behind the last
    hand.  The hands in seat order followed by the rest are the deck as
    it was, and no seat changes apart from its cards. *)
Theorem dealHands_from_head (k : nat) (newPlayers : list Player)
    (newDeck : list jsstring) :
  (∀ i p, (dealHands k newPlayers newDeck).1 !! i = Some p →
     cards p = take k (drop (k * i) newDeck)
     ∧ length (cards p) = Nat.min k (length newDeck - k * i))
  ∧ (dealHands k newPlayers newDeck).2 = drop (k * length newPlayers) newDeck
  ∧ mjoin (cards <$> (dealHands k newPlayers newDeck).1)
    ++ (dealHands k newPlayers newDeck).2 = newDeck
  ∧ seatOnly <$> (dealHands k newPlayers newDeck).1 = seatOnly <$> newPlayers.
Proof.
  split; [|split; [|split]].
  - intros i p Hp%dealHands_hand. split; [done|].
    by rewrite Hp, length_take, length_drop.
  - apply dealHands_rest.
  - apply dealHands_concat.
  - apply dealHands_seats.
Qed.

(** ** A new game *)

Section NewGame.

Implicit Types t : Table.

Lemma effects_fields t :
  players (effects t) = players t ∧ deck (effects t) = deck t
  ∧ discardedCards (effects t) = discardedCards t
  ∧ currentPlayer (effects t) = currentPlayer t
  ∧ winner (effects t) = winner t
  ∧ draggedCardIndex (effects t) = draggedCardIndex t.
Proof. done. Qed.

Lemma startGame_fields random t :
  let dealt := dealHands MIN_CARDS_PER_PLAYER (getPlayerPositions 4)
                 (createDeck random 4) in
  let t' := effects (applyUpdates t (startGame random)) in
  players t' = dealt.1 ∧ deck t' = dealt.2 ∧ discardedCards t' = []
  ∧ currentPlayer t' = 0 ∧ winner t' = None
  ∧ draggedCardIndex t' = draggedCardIndex t.
Proof.
  intros dealt t'. subst t'. unfold startGame. fold dealt.
  unfold applyUpdates. rewrite foldl_app. cbn [foldl].
  destruct (dealt.1 !! 0) as [firstPlayer|]; [|done].
  by destruct (_ && _).
Qed.

Lemma copies_perm token (deck deck' : list jsstring) :
  deck ≡ₚ deck' → copies token deck = copies token deck'.
Proof. intros H. unfold copies. by rewrite H. Qed.

Lemma createDeck_copies random n token :
  1 ≤ n → token ∈ canonicalTokens → copies token (createDeck random n) = ceilHalf n.
Proof.
  intros Hn Htoken. rewrite (copies_perm _ _ _ (createDeck_perm random n)).
  unfold unshuffledDeck. rewrite numDecksFor_ceil, copies_packs by done.
  pose proof onePack_once as Honce. rewrite Forall_forall in Honce.
  rewrite (Honce token Htoken). lia.
Qed.

Lemma createDeck_length random n :
  1 ≤ n → length (createDeck random n) = 52 * ceilHalf n.
Proof.
  intros Hn. rewrite (Permutation_length (createDeck_perm random n)).
  unfold unshuffledDeck. by rewrite numDecksFor_ceil, length_packs.
Qed.

End NewGame.

(** X8.  Whatever the table was, starting a game leaves four seats,
    Player 1 to Player 4 with ids 1 to 4, each holding 13 cards dealt in
    seat order from the head of a freshly shuffled double pack, 52 cards
    in the deck, an empty discard log, the first seat to move and no
    winner; every token of a pack is on the table twice. *)
Theorem startGame_deals (random : nat → Rand) (t : Table) :
  let t' := effects (applyUpdates t (startGame random)) in
  seatOnly <$> players t' = getPlayerPositions 4
  ∧ id <$> players t' = [1; 2; 3; 4]
  ∧ name <$> players t' = ["Player 1"; "Player 2"; "Player 3"; "Player 4"]%string
  ∧ Forall (λ p, length (cards p) = 13) (players t')
  ∧ length (deck t') = 52
  ∧ discardedCards t' = [] ∧ currentPlayer t' = 0 ∧ winner t' = None
  ∧ mjoin (hands t') ++ deck t' = createDeck random 4
  ∧ (∀ token, token ∈ canonicalTokens → copies token (allCards t') = 2)
  ∧ atRest t'.
Proof.
  intros t'.
  destruct (startGame_fields random t) as (Hps & Hdeck & Hlog & Hcur & Hwin & _).
  fold t' in Hps, Hdeck, Hlog, Hcur, Hwin.
  set (newDeck := createDeck random 4) in *.
  set (dealt := dealHands MIN_CARDS_PER_PLAYER (getPlayerPositions 4) newDeck) in *.
  assert (length newDeck = 104) as Hlen
    by (unfold newDeck; by rewrite createDeck_length by lia).
  assert (seatOnly <$> players t' = getPlayerPositions 4) as Hseats.
  { rewrite Hps. unfold dealt. by rewrite dealHands_seats. }
  assert (mjoin (hands t') ++ deck t' = newDeck) as Hjoin.
  { unfold hands. rewrite Hps, Hdeck. apply dealHands_concat. }
  split; [done|]. split; [|split; [|split; [|split]]].
  - transitivity (id <$> (seatOnly <$> players t'));
      [by rewrite <- list_fmap_compose | by rewrite Hseats].
  - transitivity (name <$> (seatOnly <$> players t'));
      [by rewrite <- list_fmap_compose | by rewrite Hseats].
  - apply Forall_forall. intros p [i Hp]%list_elem_of_lookup.
    assert (i < 4) as Hi.
    { apply lookup_lt_Some in Hp. apply (f_equal length) in Hseats.
      rewrite length_fmap in Hseats. by rewrite Hseats in Hp. }
    rewrite Hps in Hp. apply dealHands_hand in Hp.
    rewrite Hp, length_take, length_drop, Hlen.
    change MIN_CARDS_PER_PLAYER with 13. lia.
  - rewrite Hdeck. unfold dealt. rewrite dealHands_rest, length_drop, Hlen. done.
  - split; [done|]. split; [done|]. split; [done|]. split; [done|]. split.
    + intros token Htoken. unfold allCards. rewrite Hlog, app_nil_r, Hjoin.
      unfold newDeck. by rewrite createDeck_copies by (lia || done).
    + apply effects_atRest.
Qed.


(** ** One event at a time *)

Section Events.

Implicit Types t : Table.

Lemma finished_same c t : atRest t → is_Some (winner t) → dispatch c t = t.
Proof.
  intros Hrest Hwin. apply dispatch_alerts; [done|].
  rewrite handler_finished by done. constructor.
Qed.

Lemma Move_same t t' : t' = t → Move t t'.
Proof. intros ->. by constructor. Qed.

Lemma drawCard_Move t : atRest t → Move t (dispatch Draw t).
Proof.
  intros Hrest.
  destruct (winner t) as [w|] eqn:Hwin.
  { apply Move_same, finished_same; [done|]. by rewrite Hwin. }
  destruct (deck t) as [|newCard rest] eqn:Hdeck.
  { apply Move_same, dispatch_alerts; [done|].
    apply drawCard_rejects; [done..|]. by intros [? _]. }
  destruct (activePlayer t) as [p|] eqn:Hp.
  2: { apply Move_same, dispatch_alerts; [done|].
       apply drawCard_rejects; [done..|]. rewrite Hp. by intros (_ & ? & ? & _). }
  destruct (decide (length (cards p) < MAX_CARDS_PER_PLAYER_LOGIC)) as [Hlen|Hlen].
  2: { apply Move_same, dispatch_alerts; [done|].
       apply drawCard_rejects; [done..|]. rewrite Hp.
       intros (_ & ? & [= <-] & ?). done. }
  apply (move_draw _ _ newCard rest p); try done.
  all: unfold dispatch; simpl handler;
    rewrite (drawCard_accepts t newCard rest p) by done; simpl; try done.
  by rewrite Hdeck.
Qed.

Lemma discardCard_nothing i t :
  atRest t →
  activePlayer t = None ∨ (∃ p, activePlayer t = Some p ∧ cards p !! i = None) →
  discardCard i t = [].
Proof.
  intros (Hps & Hcur & _)%atRest_fields Hno. unfold discardCard, activePlayer in *.
  rewrite Hps, Hcur. do 2 (case_bool_decide; [done|]).
  destruct Hno as [->|(p & -> & ->)]; done.
Qed.

Lemma discardCard_Move i t : atRest t → Move t (dispatch (Discard i) t).
Proof.
  intros Hrest.
  destruct (activePlayer t) as [p|] eqn:Hp.
  2: { apply Move_same, dispatch_alerts; [done|]. simpl.
       rewrite discardCard_nothing; [constructor | done | by left]. }
  destruct (cards p !! i) as [c|] eqn:Hc.
  2: { apply Move_same, dispatch_alerts; [done|]. simpl.
       rewrite discardCard_nothing; [constructor | done | right; by exists p]. }
  assert ((winner t = None ∧ draggedCardIndex t = None ∧ c ≠ []
           ∧ MIN_CARDS_PER_PLAYER < length (cards p))
          ∨ ¬ (winner t = None ∧ draggedCardIndex t = None ∧ c ≠ []
               ∧ MIN_CARDS_PER_PLAYER < length (cards p))) as [Hok|Hnot].
  { destruct (winner t); [right; by intros [? _]|].
    destruct (draggedCardIndex t); [right; by intros (_ & ? & _)|].
    destruct (decide (c = [])); [right; by intros (_ & _ & ? & _)|].
    destruct (decide (MIN_CARDS_PER_PLAYER < length (cards p))); [by left|].
    right. by intros (_ & _ & _ & ?). }
  2: { apply Move_same, dispatch_alerts; [done|].
       by apply (discardCard_rejects t p i c). }
  destruct Hok as (Hwin & Hdrag & Hne & Hlen).
  pose proof (discardCard_accepts t p i c Hrest Hp Hc Hwin Hdrag Hne Hlen) as Hus.
  unfold discardWarning, discardHandOver in Hus.
  change MIN_CARDS_PER_PLAYER with 13 in *.
  apply (move_discard _ _ i p c); try done.
  all: unfold dispatch; simpl handler; rewrite Hus.
  all: destruct (length (delete i (cards p)) =? 13);
    destruct (13 <? length (delete i (cards p)));
    destruct (checkWinningCondition (delete i (cards p))); done.
Qed.

Lemma skipTurn_Move t : atRest t → Move t (dispatch Skip t).
Proof.
  intros Hrest.
  destruct (winner t) as [w|] eqn:Hwin.
  { apply Move_same, finished_same; [done|]. by rewrite Hwin. }
  destruct (activePlayer t) as [p|] eqn:Hp.
  2: { apply Move_same, dispatch_alerts; [done|]. simpl.
       apply atRest_fields in Hrest as (Hps & Hcur & _).
       unfold skipTurn, activePlayer in *.
       rewrite not_finished, Hps, Hcur, Hp by done. constructor. }
  pose proof (skipTurn_cases t p Hrest Hwin Hp) as Hus.
  change MIN_CARDS_PER_PLAYER with 13 in Hus.
  destruct (Nat.eqb_spec (length (cards p)) 13) as [Hlen|Hlen];
    [destruct (checkWinningCondition (cards p)) eqn:Hwins|].
  - apply Move_same, dispatch_alerts; [done|]. simpl. rewrite Hus.
    repeat constructor. by eexists.
  - apply (move_skip _ _ p); try done.
    all: unfold dispatch; simpl handler; by rewrite Hus.
  - apply Move_same, dispatch_alerts; [done|]. simpl. rewrite Hus.
    repeat constructor. by eexists.
Qed.

Lemma declareWin_Move t : atRest t → Move t (dispatch DeclareWin t).
Proof.
  intros Hrest.
  destruct (winner t) as [w|] eqn:Hwin.
  { apply Move_same, finished_same; [done|]. by rewrite Hwin. }
  destruct (activePlayer t) as [p|] eqn:Hp.
  2: { unfold activePlayer in Hp.
       apply move_none; unfold dispatch; simpl handler; unfold declareWin;
         by rewrite not_finished, Hp. }
  pose proof (declareWin_cases t p Hwin Hp) as Hus.
  change MIN_CARDS_PER_PLAYER with 13 in Hus.
  destruct (Nat.eqb_spec (length (cards p)) 13) as [Hlen|Hlen];
    [destruct (checkWinningCondition (cards p)) eqn:Hwins|]; simpl in Hus.
  - apply (move_declare _ _ p); try done.
    all: unfold dispatch; simpl handler; by rewrite Hus.
  - apply move_none; unfold dispatch; simpl handler; by rewrite Hus.
  - apply move_none; unfold dispatch; simpl handler; by rewrite Hus.
Qed.

Lemma insert_at_perm {A} (x : A) (l : list A) n :
  take n l ++ x :: drop n l ≡ₚ x :: l.
Proof. by rewrite <- Permutation_middle, take_drop. Qed.

Lemma handleDrop_Move e j t us :
  atRest t → handleDrop e j t = Some us → Move t (effects (applyUiUpdates t us)).
Proof.
  intros (Hps & Hcur & _)%atRest_fields. unfold handleDrop.
  destruct (winner t) as [w|] eqn:Hwin; simpl.
  { intros [= <-]. by constructor. }
  destruct (draggedCardIndex t) as [d|]; [|intros [= <-]; by constructor].
  destruct (_ && _); [intros [= <-]; by constructor|].
  rewrite Hps, Hcur.
  destruct (players t !! currentPlayer t) as [p|] eqn:Hp;
    [|intros [= <-]; by constructor].
  destruct (length (cards p) <=? d); [intros [= <-]; by constructor|].
  set (from := spliceStart (cardBeingDraggedIndex e) (length (cards p))).
  destruct (cards p !! from) as [item|] eqn:Hitem; [|done].
  match goal with |- context [withCards _ ?h] => set (hand := h) end.
  rewrite (imap_at (λ q, withCards q hand) _ _ p Hp).
  intros [= <-].
  apply (move_reorder _ _ p hand); try done.
  unfold hand. rewrite insert_at_perm. symmetry. by apply delete_Permutation.
Qed.

Lemma Step_Move t t' : atRest t → Step t t' → Move t t' ∧ atRest t'.
Proof.
  intros Hrest Hstep. split; [|destruct Hstep; apply effects_atRest].
  destruct Hstep as [c t|index t|t|e j t us Hus].
  - destruct c; [by apply drawCard_Move | by apply discardCard_Move
                | by apply skipTurn_Move | by apply declareWin_Move].
  - unfold handleDragStart. case_bool_decide; by constructor.
  - unfold handleDragEnd. case_bool_decide; by constructor.
  - by apply (handleDrop_Move e j).
Qed.

End Events.

(** ** What every table of a game satisfies *)

Section Invariants.

Implicit Types t : Table.

Lemma mjoin_insert_perm {A} (hs : list (list A)) i h h' :
  hs !! i = Some h → mjoin (<[i := h']> hs) ≡ₚ h' ++ mjoin (delete i hs).
Proof.
  revert i. induction hs as [|g hs IH]; intros [|i] Hi; simplify_eq/=; [done|].
  change (mjoin (?x :: ?xs)) with (x ++ mjoin xs).
  rewrite (IH i) by done.
  change (mjoin (g :: delete i hs)) with (g ++ mjoin (delete i hs)).
  rewrite !app_assoc. f_equiv. apply Permutation_app_comm.
Qed.

Lemma mjoin_lookup_perm {A} (hs : list (list A)) i h :
  hs !! i = Some h → mjoin hs ≡ₚ h ++ mjoin (delete i hs).
Proof.
  intros Hi. rewrite <- (mjoin_insert_perm hs i h h Hi).
  by rewrite list_insert_id.
Qed.

Lemma hands_insert t p hand :
  activePlayer t = Some p →
  cards <$> <[currentPlayer t := withCards p hand]> (players t)
  = <[currentPlayer t := hand]> (hands t)
  ∧ hands t !! currentPlayer t = Some (cards p).
Proof.
  intros Hp. unfold hands, activePlayer in *. split.
  - by rewrite list_fmap_insert.
  - by rewrite list_lookup_fmap, Hp.
Qed.

Lemma Move_allCards t t' : Move t t' → allCards t' ≡ₚ allCards t.
Proof.
  intros Hmove. unfold allCards.
  destruct Hmove as [Hps Hdk Hlog _ _
                    |newCard rest p _ Hdeck Hp _ Hps Hdk Hlog _ _
                    |i p c _ Hp Hc _ Hps Hdk Hlog _ _
                    |p _ _ _ _ Hps Hdk Hlog _ _
                    |p _ _ _ _ Hps Hdk Hlog _ _
                    |p hand _ Hp Hperm Hps Hdk Hlog _ _].
  - unfold hands. by rewrite Hps, Hdk, Hlog.
  - unfold hands at 1. rewrite Hps, Hdk, Hlog, Hdeck.
    destruct (hands_insert t p (cards p ++ [newCard]) Hp) as [-> Hh].
    rewrite (mjoin_insert_perm _ _ _ _ Hh), (mjoin_lookup_perm (hands t) _ _ Hh).
    rewrite <- !app_assoc. f_equiv. simpl.
    rewrite <- Permutation_middle. done.
  - unfold hands at 1. rewrite Hps, Hdk, Hlog.
    destruct (hands_insert t p (delete i (cards p)) Hp) as [-> Hh].
    rewrite (mjoin_insert_perm _ _ _ _ Hh), (mjoin_lookup_perm (hands t) _ _ Hh).
    rewrite fmap_app. simpl.
    rewrite (delete_Permutation (cards p) i c Hc) at 2.
    rewrite !app_assoc, <- Permutation_cons_append. simpl. done.
  - unfold hands. by rewrite Hps, Hdk, Hlog.
  - unfold hands. by rewrite Hps, Hdk, Hlog.
  - unfold hands at 1. rewrite Hps, Hdk, Hlog.
    destruct (hands_insert t p hand Hp) as [-> Hh].
    rewrite (mjoin_insert_perm _ _ _ _ Hh), (mjoin_lookup_perm (hands t) _ _ Hh).
    by rewrite Hperm.
Qed.

Lemma seats_insert t p hand :
  activePlayer t = Some p →
  seatOnly <$> <[currentPlayer t := withCards p hand]> (players t)
  = seatOnly <$> players t.
Proof.
  intros Hp. rewrite list_fmap_insert. apply list_insert_id.
  unfold activePlayer in Hp. by rewrite list_lookup_fmap, Hp.
Qed.

Lemma nextTurn_lt current n : 0 < n → nextTurn current n < n.
Proof. intros Hn. unfold nextTurn. apply Nat.mod_upper_bound. lia. Qed.

Lemma wellSeated_length t : wellSeated t → length (players t) = 4.
Proof.
  intros [Hseats _]. apply (f_equal length) in Hseats.
  by rewrite length_fmap in Hseats.
Qed.

Lemma Move_wellSeated t t' : wellSeated t → Move t t' → wellSeated t'.
Proof.
  intros Hseated Hmove. pose proof (wellSeated_length t Hseated) as Hfour.
  destruct Hseated as [Hseats Hturn]. unfold wellSeated.
  destruct Hmove as [Hps _ _ Hcur _
                    |newCard rest p _ _ Hp _ Hps _ _ Hcur _
                    |i p c _ Hp _ _ Hps _ _ Hcur _
                    |p _ _ _ _ Hps _ _ Hcur _
                    |p _ _ _ _ Hps _ _ Hcur _
                    |p hand _ Hp _ Hps _ _ Hcur _];
    rewrite Hps, Hcur, ?seats_insert by done; split; try done.
  - destruct (_ && _); [|done]. rewrite Hfour. apply nextTurn_lt. lia.
  - rewrite Hfour. apply nextTurn_lt. lia.
Qed.

Lemma Move_sizes t t' : handSizesInOrder t → Move t t' → handSizesInOrder t'.
Proof.
  intros Hsizes Hmove.
  assert (∀ p, activePlayer t = Some p → 13 ≤ length (cards p) ≤ 14) as Hactive.
  { intros p Hp. specialize (Hsizes (currentPlayer t) p Hp).
    by rewrite decide_True in Hsizes. }
  assert (∀ p hand, activePlayer t = Some p → length hand = 13 →
            ∀ j q, <[currentPlayer t := withCards p hand]> (players t) !! j = Some q →
                   length (cards q) = 13) as Hall.
  { intros p hand Hp Hhand j q. rewrite list_lookup_insert.
    case_decide as Hj; [by intros [= <-]|].
    intros Hq. specialize (Hsizes j q Hq).
    destruct (decide (j = currentPlayer t)) as [->|]; [|done].
    exfalso. apply Hj. split; [done|]. by eapply lookup_lt_Some. }
  assert (∀ p hand, activePlayer t = Some p → 13 ≤ length hand ≤ 14 →
            ∀ j q, <[currentPlayer t := withCards p hand]> (players t) !! j = Some q →
                   if decide (j = currentPlayer t) then 13 ≤ length (cards q) ≤ 14
                   else length (cards q) = 13) as Hone.
  { intros p hand Hp Hhand j q. rewrite list_lookup_insert.
    case_decide as Hj.
    - destruct Hj as [<- _]. intros [= <-]. by rewrite decide_True.
    - intros Hq. specialize (Hsizes j q Hq).
      destruct (decide (j = currentPlayer t)) as [->|]; [|done].
      exfalso. apply Hj. split; [done|]. by eapply lookup_lt_Some. }
  destruct Hmove as [Hps _ _ Hcur _
                    |newCard rest p _ _ Hp Hlen Hps _ _ Hcur _
                    |i p c _ Hp Hc Hlen Hps _ _ Hcur _
                    |p _ Hp Hlen _ Hps _ _ Hcur _
                    |p _ _ _ _ Hps _ _ Hcur _
                    |p hand _ Hp Hperm Hps _ _ Hcur _];
    intros j q; rewrite Hps.
  - rewrite Hcur. apply Hsizes.
  - rewrite Hcur. apply (Hone p); [done|].
    pose proof (Hactive p Hp). rewrite length_app. simpl. lia.
  - intros Hq. assert (length (cards q) = 13) as ->.
    { apply (Hall p (delete i (cards p)) Hp) with j; [|done].
      pose proof (Hactive p Hp). rewrite length_delete by by eexists. lia. }
    case_decide; lia.
  - intros Hq. assert (length (cards q) = 13) as ->.
    { specialize (Hsizes j q Hq).
      destruct (decide (j = currentPlayer t)) as [->|]; [|done].
      unfold activePlayer in Hp. congruence. }
    case_decide; lia.
  - rewrite Hcur. apply Hsizes.
  - rewrite Hcur. apply (Hone p); [done|].
    rewrite (Permutation_length Hperm). by apply Hactive.
Qed.

Lemma Move_winner t t' : winnerHoldsWin t → Move t t' → winnerHoldsWin t'.
Proof.
  intros Hwon Hmove w. unfold activePlayer.
  destruct Hmove as [Hps _ _ Hcur Hwin
                    |newCard rest p _ _ _ _ _ _ _ _ Hwin
                    |i p c _ _ _ _ _ _ _ _ Hwin
                    |p _ _ _ _ _ _ _ _ Hwin
                    |p _ Hp Hlen Hwins Hps _ _ Hcur Hwin
                    |p hand _ _ _ _ _ _ _ Hwin];
    rewrite Hwin; try done.
  - rewrite Hps, Hcur. apply Hwon.
  - intros [= <-]. by rewrite Hps, Hcur.
Qed.

Lemma Move_invariant t t' :
  gameInvariant t → Move t t' → atRest t' → gameInvariant t'.
Proof.
  intros (_ & Hseats & Hcards & Hsizes & Hwon) Hmove Hrest.
  split; [done|]. split; [by eapply Move_wellSeated|].
  split; [by rewrite (Move_allCards t t')|].
  split; [by eapply Move_sizes | by eapply Move_winner].
Qed.

Lemma startGame_invariant random t :
  gameInvariant (effects (applyUpdates t (startGame random))).
Proof.
  destruct (startGame_fields random t) as (Hps & Hdeck & Hlog & Hcur & Hwin & _).
  set (t' := effects (applyUpdates t (startGame random))) in *.
  set (newDeck := createDeck random 4) in *.
  assert (length newDeck = 104) as Hlen
    by (unfold newDeck; by rewrite createDeck_length by lia).
  assert (seatOnly <$> players t' = getPlayerPositions 4) as Hseats
    by (rewrite Hps; by rewrite dealHands_seats).
  split; [apply effects_atRest|]. split; [|split; [|split]].
  - split; [done|]. rewrite Hcur. lia.
  - unfold allCards, hands. rewrite Hps, Hdeck, Hlog, app_nil_r, dealHands_concat.
    apply createDeck_perm.
  - intros j q Hq.
    assert (length (cards q) = 13) as ->; [|case_decide; lia].
    assert (j < 4) as Hj.
    { apply lookup_lt_Some in Hq. apply (f_equal length) in Hseats.
      rewrite length_fmap in Hseats. by rewrite Hseats in Hq. }
    rewrite Hps in Hq. apply dealHands_hand in Hq.
    rewrite Hq, length_take, length_drop, Hlen.
    change MIN_CARDS_PER_PLAYER with 13. lia.
  - intros w. by rewrite Hwin.
Qed.

Lemma played_invariant t : played t → gameInvariant t.
Proof.
  induction 1 as [random|t t' _ IH Hstep|random t _ _].
  - apply startGame_invariant.
  - destruct (Step_Move t t' (proj1 IH) Hstep) as [Hmove Hrest].
    by apply (Move_invariant t).
  - apply startGame_invariant.
Qed.

End Invariants.

(** X9.  No card is ever lost or made: on every table of a game the
    hands, the deck and the discard log together are the 104 cards of
    the double pack, each token of a pack exactly twice. *)
Theorem played_conserves_cards (t : Table) :
  played t →
  allCards t ≡ₚ unshuffledDeck 4
  ∧ length (allCards t) = 104
  ∧ (∀ token, token ∈ canonicalTokens → copies token (allCards t) = 2)
  ∧ (∀ token, token ∈ allCards t → token ∈ canonicalTokens).
Proof.
  intros (_ & _ & Hcards & _)%played_invariant.
  split; [done|]. split; [by rewrite Hcards|]. split.
  - intros token Htoken. rewrite (copies_perm _ _ _ Hcards).
    change (unshuffledDeck 4) with (mjoin (replicate 2 onePack)).
    rewrite copies_packs.
    pose proof onePack_once as Honce. rewrite Forall_forall in Honce.
    by rewrite (Honce token Htoken).
  - intros token. rewrite Hcards. apply (packs_canonical 2).
Qed.

Lemma played_conserves_cards_witness :
  played (newTable alwaysHalf)
  ∧ allCards (newTable alwaysHalf) ≡ₚ unshuffledDeck 4.
Proof.
  split; [apply played_new|].
  exact (proj1 (played_conserves_cards _ (played_new alwaysHalf))).
Defined.

(** X10.  On every table of a game each player holds 13 or 14 cards, and
    only the player to move can hold 14. *)
Theorem played_hand_sizes (t : Table) :
  played t →
  (∀ i p, players t !! i = Some p → 13 ≤ length (cards p) ≤ 14)
  ∧ (∀ i p, players t !! i = Some p → length (cards p) = 14 →
       i = currentPlayer t).
Proof.
  intros (_ & _ & _ & Hsizes & _)%played_invariant. split.
  - intros i p Hp. specialize (Hsizes i p Hp). case_decide; lia.
  - intros i p Hp Hlen. specialize (Hsizes i p Hp). case_decide; [done | lia].
Qed.

Lemma played_hand_sizes_witness :
  played (newTable alwaysHalf)
  ∧ (∀ i p, players (newTable alwaysHalf) !! i = Some p →
       13 ≤ length (cards p) ≤ 14).
Proof.
  split; [apply played_new|].
  exact (proj1 (played_hand_sizes _ (played_new alwaysHalf))).
Defined.

(** X11.  A winner is only ever set to the player to move, holding 13
    cards that pass the win evaluator, and is that player still on every
    later table of the game. *)
Theorem played_winner_holds_win (t : Table) (w : Player) :
  played t → winner t = Some w →
  activePlayer t = Some w ∧ length (cards w) = 13
  ∧ checkWinningCondition (cards w) = true.
Proof.
  intros (_ & _ & _ & _ & Hwon)%played_invariant Hw. by apply Hwon.
Qed.

(** X12.  On every table of a game the refs agree with the state, the
    seats are the four of the deal with ids 1 to 4, and the turn is at one
    of them. *)
Theorem played_seats (t : Table) :
  played t →
  atRest t
  ∧ seatOnly <$> players t = getPlayerPositions 4
  ∧ id <$> players t = [1; 2; 3; 4]
  ∧ is_Some (activePlayer t).
Proof.
  intros (Hrest & Hseated & _)%played_invariant.
  pose proof (wellSeated_length t Hseated) as Hfour.
  destruct Hseated as [Hseats Hturn].
  split; [done|]. split; [done|]. split.
  - transitivity (id <$> (seatOnly <$> players t));
      [by rewrite <- list_fmap_compose | by rewrite Hseats].
  - apply lookup_lt_is_Some. by rewrite Hfour.
Qed.

Lemma played_seats_witness :
  played (newTable alwaysHalf) ∧ atRest (newTable alwaysHalf).
Proof.
  split; [apply played_new|].
  exact (proj1 (played_seats _ (played_new alwaysHalf))).
Defined.

Lemma played_winner_holds_win_witness :
  played declaredTable ∧ winner declaredTable = Some spadesSeat
  ∧ activePlayer declaredTable = Some spadesSeat
  ∧ length (cards spadesSeat) = 13
  ∧ checkWinningCondition (cards spadesSeat) = true.
Proof.
  assert (played declaredTable) as Hplayed.
  { apply (played_step (newTable almostOne)); [apply played_new|].
    apply step_command. }
  assert (winner declaredTable = Some spadesSeat) as Hwin by (vm_compute; reflexivity).
  split; [exact Hplayed|]. split; [exact Hwin|].
  exact (played_winner_holds_win declaredTable spadesSeat Hplayed Hwin).
Defined.

(** X13.  One event changes little: the hands of the players who are not
    to move stay as they are, every seat keeps its id, name and place, the
    deck loses at most its head, the discard log gains at most one record
    at its end, which then names the player to move and a card that was
    in that hand, and the turn stays or passes to the next seat. *)
Theorem event_is_local (t t' : Table) :
  atRest t → Step t t' →
  (∀ i, i ≠ currentPlayer t → players t' !! i = players t !! i)
  ∧ seatOnly <$> players t' = seatOnly <$> players t
  ∧ (deck t' = deck t ∨ ∃ newCard, deck t = newCard :: deck t')
  ∧ (discardedCards t' = discardedCards t
     ∨ ∃ p c, activePlayer t = Some p ∧ c ∈ cards p
         ∧ discardedCards t' = discardedCards t ++ [mkDiscardedCard (id p) c]
         ∧ lastDiscarded t' = Some (mkDiscardedCard (id p) c))
  ∧ (currentPlayer t' = currentPlayer t
     ∨ currentPlayer t' = nextTurn (currentPlayer t) (length (players t))).
Proof.
  intros Hrest Hstep. destruct (Step_Move t t' Hrest Hstep) as [Hmove _].
  assert (∀ p hand, activePlayer t = Some p →
            players t' = <[currentPlayer t := withCards p hand]> (players t) →
            (∀ i, i ≠ currentPlayer t → players t' !! i = players t !! i)
            ∧ seatOnly <$> players t' = seatOnly <$> players t) as Hins.
  { intros p hand Hp ->. split; [|by apply seats_insert].
    intros i Hi. by rewrite list_lookup_insert_ne. }
  destruct Hmove as [Hps Hdk Hlog Hcur _
                    |newCard rest p _ Hdeck Hp _ Hps Hdk Hlog Hcur _
                    |i p c _ Hp Hc _ Hps Hdk Hlog Hcur _
                    |p _ _ _ _ Hps Hdk Hlog Hcur _
                    |p _ _ _ _ Hps Hdk Hlog Hcur _
                    |p hand _ Hp _ Hps Hdk Hlog Hcur _].
  - rewrite Hps. repeat split; auto.
  - destruct (Hins _ _ Hp Hps) as [? ?]. repeat split; auto.
    right. exists newCard. by rewrite Hdk, Hdeck.
  - destruct (Hins _ _ Hp Hps) as [? ?]. split; [done|]. split; [done|].
    split; [by left|]. split.
    + right. exists p, c. split; [done|].
      split; [by eapply list_elem_of_lookup_2|]. split; [done|].
      unfold lastDiscarded. rewrite Hlog, length_app. simpl.
      rewrite lookup_app_r by lia.
      replace (length (discardedCards t) + 1 - 1 - length (discardedCards t))
        with 0 by lia.
      by destruct (Nat.ltb_spec 0 (length (discardedCards t) + 1)); [|lia].
    + rewrite Hcur. destruct (_ && _); auto.
  - rewrite Hps. repeat split; auto.
  - rewrite Hps. repeat split; auto.
  - destruct (Hins _ _ Hp Hps) as [? ?]. repeat split; auto.
Qed.

Lemma event_is_local_witness :
  atRest quietTable ∧ Step quietTable (dispatch Draw quietTable)
  ∧ (∀ i, i ≠ currentPlayer quietTable →
       players (dispatch Draw quietTable) !! i = players quietTable !! i).
Proof.
  assert (atRest quietTable) as Hrest by (vm_compute; reflexivity).
  split; [exact Hrest|]. split; [apply step_command|].
  exact (proj1 (event_is_local _ _ Hrest (step_command Draw quietTable))).
Defined.

(** X14.  Once a winner is set, no command and no drag event changes
    anything at the table; only a new game does. *)
Theorem finished_table_is_frozen (t t' : Table) :
  atRest t → is_Some (winner t) → Step t t' → t' = t.
Proof.
  intros Hrest Hwin Hstep.
  destruct Hstep as [c t|index t|t|e j t us Hus].
  - by apply finished_same.
  - unfold handleDragStart. by rewrite bool_decide_eq_true_2.
  - unfold handleDragEnd. by rewrite bool_decide_eq_true_2.
  - unfold handleDrop in Hus. rewrite bool_decide_eq_true_2 in Hus by done.
    by injection Hus as <-.
Qed.

Lemma finished_table_is_frozen_witness :
  atRest declaredTable ∧ is_Some (winner declaredTable)
  ∧ Step declaredTable (dispatch Draw declaredTable)
  ∧ dispatch Draw declaredTable = declaredTable.
Proof.
  assert (atRest declaredTable) as Hrest by apply dispatch_atRest.
  assert (is_Some (winner declaredTable)) as Hwin by (vm_compute; by eexists).
  split; [exact Hrest|]. split; [exact Hwin|]. split; [apply step_command|].
  exact (finished_table_is_frozen _ _ Hrest Hwin (step_command Draw declaredTable)).
Defined.

(** ** What the page offers *)

(** X15.  Between events the page offers what the handlers will take:
    the Draw button is enabled exactly when a draw would be accepted, the
    Declare Win button, like the [canDeclare] flag, exactly when a
    declaration would be accepted, and a skip is accepted exactly when
    the Skip button is enabled and the hand does not win. *)
Theorem buttons_match_handlers (t : Table) :
  atRest t →
  canDraw t = accepted (drawCard t)
  ∧ declareButtonEnabled t = accepted (declareWin t)
  ∧ canDeclare t = accepted (declareWin t)
  ∧ accepted (skipTurn t)
    = canSkipButton t
      && negb (from_option (λ p, checkWinningCondition (cards p)) false
                 (activePlayer t)).
Proof.
  intros Hrest. pose proof Hrest as (Hps & Hcur & Hcan)%atRest_fields.
  unfold canDraw, declareButtonEnabled, canSkipButton. rewrite Hcan.
  unfold declarable. fold (activePlayer t).
  destruct (winner t) as [w|] eqn:Hwin.
  { assert (is_Some (winner t)) as Hsome by by rewrite Hwin.
    rewrite (handler_finished Draw), (handler_finished DeclareWin),
      (handler_finished Skip) by done.
    rewrite bool_decide_eq_true_2 by by eexists. simpl.
    destruct (activePlayer t); simpl; by rewrite ?andb_false_r. }
  rewrite (bool_decide_eq_false_2 (is_Some None)) by by intros [? ?].
  cbn [negb andb orb].
  destruct (activePlayer t) as [p|] eqn:Hp.
  2: { unfold drawCard, declareWin, skipTurn, activePlayer in *.
       rewrite not_finished, Hps, Hcur, Hp by done.
       by destruct (deck t). }
  rewrite (declareWin_cases t p Hwin Hp), (skipTurn_cases t p Hrest Hwin Hp).
  cbn [from_option]. change MIN_CARDS_PER_PLAYER with 13.
  split; [|split; [|split]].
  - destruct (deck t) as [|newCard rest] eqn:Hdeck.
    + symmetry. apply alerts_rejected, drawCard_rejects; [done..|].
      rewrite Hdeck. by intros [? _].
    + destruct (Nat.ltb_spec (length (cards p)) MAX_CARDS_PER_PLAYER_LOGIC).
      * by rewrite (drawCard_accepts t newCard rest p).
      * symmetry. apply alerts_rejected, drawCard_rejects; [done..|].
        rewrite Hp. intros (_ & ? & [= <-] & ?). lia.
  - destruct (length (cards p) =? 13); [|done].
    by destruct (checkWinningCondition (cards p)).
  - destruct (length (cards p) =? 13); [|done].
    by destruct (checkWinningCondition (cards p)).
  - destruct (length (cards p) =? 13); [|done].
    by destruct (checkWinningCondition (cards p)).
Qed.

Lemma buttons_match_handlers_witness :
  atRest quietTable ∧ canDraw quietTable = accepted (drawCard quietTable).
Proof.
  assert (atRest quietTable) as Hrest by (vm_compute; reflexivity).
  split; [exact Hrest|]. exact (proj1 (buttons_match_handlers quietTable Hrest)).
Defined.

(** ** Moving a card *)

Section Reorder.

Implicit Types t : Table.

Lemma spliceStart_inside (n len : nat) :
  n ≤ len → spliceStart (Some (Z.of_nat n)) len = n.
Proof.
  intros Hn. unfold spliceStart.
  destruct (Z.ltb_spec (Z.of_nat n) 0); [lia|]. rewrite Nat2Z.id. lia.
Qed.

Lemma landing_index (d j len : nat) (onHand : bool) :
  d < len → j ≤ len →
  (if onHand && (len <=? j) then Z.of_nat (len - 1)
   else if (Z.of_nat d <? Z.of_nat j)%Z then (Z.of_nat j - 1)%Z else Z.of_nat j)
  = Z.of_nat (if d <? j then j - 1 else j)
  ∧ (if d <? j then j - 1 else j) ≤ len - 1.
Proof.
  intros Hd Hj.
  destruct (Z.ltb_spec (Z.of_nat d) (Z.of_nat j)), (Nat.ltb_spec d j); try lia.
  - destruct (Nat.leb_spec len j), onHand; simpl; split; lia.
  - destruct (Nat.leb_spec len j), onHand; simpl; split; lia.
Qed.

End Reorder.

(** X16.  Dropping the card that was picked up at index [d] onto index
    [j] of the hand puts it at index [j], or at [j - 1] when it comes from
    the left, and leaves the other cards in their order; the drag is over
    and nothing but that hand changes.  The handler reads the dragged
    index from the event; here the event carries the index the drag
    started with, as [handleDragStart] writes it. *)
Theorem handleDrop_places_card (t : Table) (e : DropEvent) (d j : nat)
    (p : Player) (c : jsstring) :
  atRest t → winner t = None → draggedCardIndex t = Some d →
  activePlayer t = Some p → cards p !! d = Some c →
  cardBeingDraggedIndex e = Some (Z.of_nat d) →
  j ≤ length (cards p) → (d = j → onOwnTarget e = false) →
  let k := if d <? j then j - 1 else j in
  ∃ hand,
    handleDrop e j t
    = Some [setDraggedCardIndex None;
            tableUpdate
              (setPlayers (<[currentPlayer t := withCards p hand]> (players t)))]
    ∧ hand !! k = Some c ∧ delete k hand = delete d (cards p)
    ∧ hand ≡ₚ cards p.
Proof.
  intros (Hps & Hcur & _)%atRest_fields Hwin Hdrag Hp Hc He Hj Hown k.
  pose proof (lookup_lt_Some _ _ _ Hc) as Hd.
  set (h := delete d (cards p)).
  assert (length h = length (cards p) - 1) as Hh.
  { unfold h. rewrite length_delete by by eexists. done. }
  destruct (landing_index d j (length (cards p)) (onHandArea e) Hd Hj) as [Hland Hk].
  fold k in Hland, Hk.
  exists (take k h ++ c :: drop k h).
  split; [|split; [|split]].
  - unfold handleDrop, activePlayer in *.
    rewrite not_finished, Hdrag, Hps, Hcur, Hp, He by done.
    assert (numberIs (Some (Z.of_nat d)) j && onOwnTarget e = false) as ->.
    { unfold numberIs. destruct (Z.eqb_spec (Z.of_nat d) (Z.of_nat j)); [|done].
      rewrite Hown by lia. apply andb_false_r. }
    destruct (Nat.leb_spec (length (cards p)) d); [lia|].
    rewrite spliceStart_inside by lia. rewrite Hc. fold h.
    unfold numberBelow. rewrite Hh.
    assert ((if onHandArea e && (length (cards p) <=? j)
             then Z.of_nat (length (cards p) - 1)
             else if (Z.of_nat d <? Z.of_nat j)%Z
                  then (Z.of_nat j - 1)%Z else Z.of_nat j)
            = Z.of_nat k) as Hland' by done.
    destruct (Z.of_nat d <? Z.of_nat j)%Z; rewrite Hland';
      rewrite spliceStart_inside by lia;
      by rewrite (imap_at (λ q, withCards q (take k h ++ c :: drop k h)) _ _ p Hp).
  - apply list_lookup_middle. rewrite length_take_le; lia.
  - rewrite <- (length_take_le h k) at 1 by lia.
    rewrite delete_middle. apply take_drop.
  - rewrite insert_at_perm. symmetry. by apply delete_Permutation.
Qed.

Lemma handleDrop_places_card_witness :
  atRest draggingTable ∧ draggedCardIndex draggingTable = Some 0
  ∧ ∃ hand,
      handleDrop (mkDropEvent (Some 0%Z) false false) 3 draggingTable
      = Some [setDraggedCardIndex None;
              tableUpdate
                (setPlayers (<[currentPlayer draggingTable
                               := withCards (seat 1 plainHand) hand]>
                               (players draggingTable)))]
      ∧ hand !! 2 = Some (units "A" ++ spade)
      ∧ delete 2 hand = delete 0 (cards (seat 1 plainHand))
      ∧ hand ≡ₚ cards (seat 1 plainHand).
Proof.
  assert (atRest draggingTable) as Hrest by (vm_compute; reflexivity).
  split; [exact Hrest|]. split; [reflexivity|].
  refine (handleDrop_places_card draggingTable (mkDropEvent (Some 0%Z) false false)
            0 3 (seat 1 plainHand) (units "A" ++ spade)
            Hrest eq_refl eq_refl eq_refl eq_refl eq_refl _ _).
  - simpl. lia.
  - intros H. discriminate H.
Defined.



(** ** Sets against runs *)

(** X18.  No group of parsed cards is both a set and a run. *)
Theorem set_is_no_run (cards : list ParsedCard) :
  Forall wellParsed cards → isSet cards = true → isRun cards = false.
Proof.
  intros Hwp (Hlen & Hrank & _)%isSet_true.
  apply not_true_is_false. rewrite (isRun_accepts cards Hwp).
  intros (_ & _ & Hor).
  assert (∀ c1 c2, c1 ∈ cards → c2 ∈ cards → key c1 = key c2) as Hkey.
  { intros c1 c2 H1 H2. rewrite Forall_forall in Hwp.
    destruct (Hwp c1 H1) as [_ Hv1]. destruct (Hwp c2 H2) as [_ Hv2].
    unfold key. by rewrite Hv1, Hv2, (Hrank c1 c2). }
  destruct Hor as [[m Hm]|(Hone & _ & _)].
  - assert (m ∈ key <$> cards ∧ (m + 1)%Z ∈ key <$> cards) as [H1 H2].
    { rewrite Hm. destruct (length cards) as [|[|n]]; [lia..|].
      simpl. split; [left | right; left]. }
    apply list_elem_of_fmap in H1 as (c1 & E1 & H1).
    apply list_elem_of_fmap in H2 as (c2 & E2 & H2).
    pose proof (Hkey c1 c2 H1 H2). lia.
  - assert (filter isAce cards = cards) as Hall.
    { destruct (filter isAce cards) as [|ace rest] eqn:Hfilter; [done|].
      assert (ace ∈ filter isAce cards) as [Hace Hin]%list_elem_of_filter
        by (rewrite Hfilter; left).
      rewrite <- Hfilter. apply filter_all, Forall_forall. intros c Hc.
      unfold isAce in *. by rewrite (Hrank c ace). }
    rewrite Hall in Hone. lia.
Qed.

Lemma set_is_no_run_witness :
  Forall wellParsed threeKings ∧ isSet threeKings = true
  ∧ isRun threeKings = false.
Proof.
  assert (Forall wellParsed threeKings) as Hwp.
  { repeat first [apply Forall_nil_2 | apply Forall_cons_2];
      (split; [by eexists | reflexivity]). }
  split; [exact Hwp|]. split; [reflexivity|].
  exact (set_is_no_run threeKings Hwp eq_refl).
Defined.

(** ** The demo room *)

(** X19.  Drawing in the demo room always succeeds and appends one token
    of a pack to the cards, whatever the two random numbers are. *)
Theorem demo_draw_is_a_card (forSuit forValue : Rand) (cards : list jsstring) :
  ∃ token,
    GameRoom.drawCard forSuit forValue cards = Some (cards ++ [token])
    ∧ token ∈ canonicalTokens.
Proof.
  unfold GameRoom.drawCard.
  pose proof (floorTimes_lt forSuit 4 ltac:(lia)) as Hs.
  pose proof (floorTimes_lt forValue 13 ltac:(lia)) as Hv.
  change (length [spade; heart; diamond; club]) with 4.
  set (values := units <$> _). change (length values) with 13.
  set (i := floorTimes forSuit 4) in *. set (k := floorTimes forValue 13) in *.
  clearbody i k.
  assert (∃ s v, [spade; heart; diamond; club] !! i = Some s
                 ∧ values !! k = Some v ∧ v ++ s ∈ canonicalTokens)
    as (s & v & -> & -> & Hin).
  { do 4 (destruct i as [|i];
            [do 13 (destruct k as [|k];
                      [eexists _, _; split; [reflexivity|]; split; [reflexivity|];
                       apply (bool_decide_unpack _); by vm_compute|]);
             lia|]).
    lia. }
  by exists (v ++ s).
Qed.

(** ** A whole turn *)

(** X20.  Drawing and then discarding the card just drawn leaves every
    hand as it was: the head of the deck goes to the end of the discard
    log under the player's id, and the turn passes to the next seat
    unless the hand wins, in which case it stays for the declaration. *)
Theorem draw_then_discard (t : Table) (p : Player) (c : jsstring)
    (rest : list jsstring) :
  atRest t → winner t = None → draggedCardIndex t = None →
  activePlayer t = Some p → length (cards p) = 13 →
  deck t = c :: rest → c ≠ [] →
  let t' := dispatchAll [Draw; Discard 13] t in
  players t' = players t
  ∧ deck t' = rest
  ∧ discardedCards t' = discardedCards t ++ [mkDiscardedCard (id p) c]
  ∧ currentPlayer t'
    = (if checkWinningCondition (cards p) then currentPlayer t
       else nextTurn (currentPlayer t) (length (players t)))
  ∧ winner t' = None.
Proof.
  intros Hrest Hwin Hdrag Hp Hlen Hdeck Hne t'.
  set (p1 := withCards p (cards p ++ [c])).
  set (t1 := dispatch Draw t).
  assert (drawCard t = [setDeck (drop 1);
                        setPlayers (<[currentPlayer t := p1]> (players t))]) as Hdraw.
  { apply (drawCard_accepts t c rest p); try done.
    rewrite Hlen. unfold MAX_CARDS_PER_PLAYER_LOGIC. lia. }
  assert (players t1 = <[currentPlayer t := p1]> (players t)
          ∧ deck t1 = rest ∧ discardedCards t1 = discardedCards t
          ∧ currentPlayer t1 = currentPlayer t ∧ winner t1 = None
          ∧ draggedCardIndex t1 = None) as (Hps1 & Hdk1 & Hlog1 & Hcur1 & Hwin1 & Hdrag1).
  { unfold t1, dispatch. simpl handler. rewrite Hdraw. simpl.
    by rewrite Hdeck, Hwin, Hdrag. }
  assert (atRest t1) as Hrest1 by apply dispatch_atRest.
  assert (activePlayer t1 = Some p1) as Hp1.
  { unfold activePlayer. rewrite Hps1, Hcur1.
    apply list_lookup_insert_eq. by eapply lookup_lt_Some. }
  assert (cards p1 !! 13 = Some c) as Hc.
  { simpl. apply list_lookup_middle. done. }
  assert (delete 13 (cards p1) = cards p) as Hleft.
  { simpl. rewrite <- Hlen, delete_middle. apply app_nil_r. }
  assert (MIN_CARDS_PER_PLAYER < length (cards p1)) as Hlen1.
  { simpl. rewrite length_app, Hlen. unfold MIN_CARDS_PER_PLAYER. simpl. lia. }
  pose proof (discardCard_accepts t1 p1 13 c Hrest1 Hp1 Hc Hwin1 Hdrag1 Hne Hlen1)
    as Hdiscard.
  rewrite Hleft, Hps1, Hcur1, length_insert, list_insert_insert_eq in Hdiscard.
  assert (withCards p1 (cards p) = p) as Hback by by destruct p.
  rewrite Hback, (list_insert_id _ _ _ Hp) in Hdiscard.
  unfold discardWarning, discardHandOver in Hdiscard. rewrite Hlen in Hdiscard.
  change MIN_CARDS_PER_PLAYER with 13 in Hdiscard.
  change (dispatchAll [Draw; Discard 13] t) with (dispatch (Discard 13) t1) in t'.
  subst t'. clearbody t1. unfold dispatch. simpl handler. rewrite Hdiscard.
  destruct (checkWinningCondition (cards p)); simpl;
    by rewrite Hdk1, Hlog1, Hcur1, Hwin1.
Qed.

Lemma draw_then_discard_witness :
  atRest quietTable
  ∧ players (dispatchAll [Draw; Discard 13] quietTable) = players quietTable.
Proof.
  assert (atRest quietTable) as Hrest by (vm_compute; reflexivity).
  split; [exact Hrest|].
  refine (proj1 (draw_then_discard quietTable (seat 1 plainHand)
                   (units "9" ++ diamond) [units "5" ++ club]
                   Hrest eq_refl eq_refl eq_refl eq_refl eq_refl _)).
  intros H. discriminate H.
Defined.
